(** * Siamese phase cosmology scripts: the oscillator integrators

  A shallow embedding of the numeric part of

  - [scripts/make_phase_portrait_emergent_time.py]: [integrate_vdp]
    (a Van der Pol oscillator stepped by semi-implicit Euler into two
    preallocated numpy arrays, with optional progress printing) and
    the transient / limit-cycle split done in [main];
  - [scripts/phase_limit_cycle.py]: the module-level loop of the
    sine-restoring ("pendulum") variant, which appends to [phi_list].

  Python [float] and numpy [float64] are IEEE 754 binary64 numbers
  with round-to-nearest-even arithmetic: they are Rocq's primitive
  [float], whose operations are specified bit for bit by [SpecFloat].
  Python [int] is [Z].  Exceptions are an explicit [result]; what is
  printed is an explicit output log; whether the allocator serves the
  requests of [np.empty], and what the memory it hands out contains,
  are explicit arguments.  [sin] and [pow] of the C library are left
  abstract.

  Layout: the runtime ([Py], [Np]), the two scripts ([PhasePortrait],
  [PhaseLimitCycle]), the values [main] computes around the integrator
  ([Main]), the recurrence they are compared with ([Euler]), then the
  proofs and the claims C1-C10, then further properties X1-X14 of
  [integrate_vdp] and [main]. *)

From Stdlib Require Import ZArith List Bool Lia Floats.
Import ListNotations.

#[local] Set Warnings "-inexact-float".

(** ** The Python runtime the scripts rely on *)

Module Py.

(** The built-in exceptions the modelled operations can raise. *)
Inductive exn : Set :=
| ValueError
| ZeroDivisionError
| IndexError
| OverflowError
| MemoryError.

Inductive result (A : Type) : Type :=
| Ok (a : A)
| Raise (e : exn).

Arguments Ok {A} a.
Arguments Raise {A} e.

(** What [integrate_vdp] prints:
    [print(f"\rIntegrating: {pct:3d}% ", end="")] and [print("\nDone.")]. *)
Inductive output : Set :=
| Integrating (pct : Z)
| Done.

Definition stdout := list output.

(** Computations that may raise and that append to standard output.
    What was printed before an exception stays printed. *)
Definition M (A : Type) : Type := stdout -> result A * stdout.

Definition ret {A} (a : A) : M A := fun out => (Ok a, out).

Definition bind {A B} (m : M A) (f : A -> M B) : M B :=
  fun out =>
    match m out with
    | (Ok a, out') => f a out'
    | (Raise e, out') => (Raise e, out')
    end.

Definition lift {A} (r : result A) : M A := fun out => (r, out).

Definition print (o : output) : M unit := fun out => (Ok tt, out ++ [o]).

(** [a // b] on integers: floor division. *)
Definition floordiv (a b : Z) : result Z :=
  if (b =? 0)%Z then Raise ZeroDivisionError else Ok (a / b)%Z.

(** [a % b] on integers: the remainder has the sign of [b]. *)
Definition mod_ (a b : Z) : result Z :=
  if (b =? 0)%Z then Raise ZeroDivisionError else Ok (a mod b)%Z.

(** An integer as an (unnormalised) binary float, exactly. *)
Definition Z2SF (z : Z) : spec_float :=
  match z with
  | Z0 => S754_zero false
  | Zpos p => S754_finite false p 0
  | Zneg p => S754_finite true p 0
  end.

(** [a / b] on integers: true division, the quotient correctly
    rounded to binary64. *)
Definition truediv (a b : Z) : result float :=
  if (b =? 0)%Z then Raise ZeroDivisionError
  else match SF64div (Z2SF a) (Z2SF b) with
       | S754_infinity _ => Raise OverflowError
       | q => Ok (SF2Prim q)
       end.

(** [int(f)] on a float: truncation toward zero. *)
Definition int (f : float) : result Z :=
  match Prim2SF f with
  | S754_nan => Raise ValueError
  | S754_infinity _ => Raise OverflowError
  | S754_zero _ => Ok 0%Z
  | S754_finite s m e =>
      let a := Z.shiftl (Zpos m) e in
      Ok (if s then - a else a)%Z
  end.

(** [range(n)]: [0, 1, ..., n-1], empty when [n <= 0]. *)
Definition range (n : Z) : list Z := map Z.of_nat (seq 0 (Z.to_nat n)).

(** [a[:stop]] and [a[start:]] on a sequence: a negative bound counts
    from the end, and bounds are clipped to the sequence, so that
    slicing never raises. *)
Definition len {A} (a : list A) : Z := Z.of_nat (length a).

Definition clip {A} (a : list A) (i : Z) : nat :=
  Z.to_nat (if (i <? 0)%Z then Z.max 0 (i + len a) else Z.min i (len a)).

Definition slice_to {A} (a : list A) (stop : Z) : list A :=
  firstn (clip a stop) a.

Definition slice_from {A} (a : list A) (start : Z) : list A :=
  skipn (clip a start) a.

(** [for i in l: s = body(i, s)]. *)
Fixpoint for_each {S : Type} (l : list Z) (body : Z -> S -> M S) (s : S)
  : M S :=
  match l with
  | [] => ret s
  | i :: l' => bind (body i s) (for_each l' body)
  end.

End Py.

Declare Scope py_scope.
Delimit Scope py_scope with py.
Notation "x <- m ;; k" := (Py.bind m (fun x => k))
(at level 61, m at next level, right associativity) : py_scope.
Notation "m ;; k" := (Py.bind m (fun _ => k))
(at level 61, right associativity) : py_scope.

(** ** numpy arrays of float64 *)

Module Np.

(** One element of a float64 array.  [nstores] is ghost state: how
    often the element has been assigned since the array was
    allocated. *)
Record cell : Set := { value : float; nstores : nat }.

Definition ndarray := list cell.

Definition values (a : ndarray) : list float := map value a.

(** The largest [npy_intp] of a 64-bit build, and the size in bytes
    of one float64. *)
Definition max_intp : Z := 2 ^ 63 - 1.
Definition itemsize : Z := 8.

(** [np.empty(n, dtype=float)].  A negative [n] raises
    [ValueError: negative dimensions are not allowed]; an [n] whose
    size in bytes [n * 8] exceeds [npy_intp] raises [ValueError] as well
    ([Maximum allowed dimension exceeded] from [2 ^ 63] on,
    [array is too big] from [2 ^ 60] on).  Then the memory is requested:
    when the allocator does not serve the request ([served] is false)
    numpy raises [MemoryError]; otherwise the array has [n] elements
    holding whatever the allocator left there ([junk]). *)
Definition empty (served : bool) (junk : nat -> float) (n : Z)
  : Py.result ndarray :=
  if (n <? 0)%Z then Py.Raise Py.ValueError
  else if (max_intp <? n * itemsize)%Z then Py.Raise Py.ValueError
  else if served then
    Py.Ok (map (fun k => {| value := junk k; nstores := 0 |})
               (seq 0 (Z.to_nat n)))
  else Py.Raise Py.MemoryError.

(** Assigning to one element. *)
Definition assign (c : cell) (val : float) : cell :=
  {| value := val; nstores := S (nstores c) |}.

Fixpoint store (k : nat) (val : float) (a : ndarray) : ndarray :=
  match a, k with
  | [], _ => []
  | c :: a', O => assign c val :: a'
  | c :: a', S k' => c :: store k' val a'
  end.

(** [a[i] = val]: indices [-len(a) <= i < len(a)], the negative ones
    counting from the end; anything else raises [IndexError]. *)
Definition setitem (a : ndarray) (i : Z) (val : float) : Py.result ndarray :=
  let n := Z.of_nat (length a) in
  if ((i <? - n) || (n <=? i))%Z then Py.Raise Py.IndexError
  else Py.Ok (store (Z.to_nat (if (i <? 0)%Z then i + n else i)) val a).

(** The array that holds [vals], each element assigned exactly once
    since the allocation. *)
Definition filled (vals : list float) : ndarray :=
  map (fun val => {| value := val; nstores := 1 |}) vals.

(** [a[i]]: the same index rule as [setitem]. *)
Definition getitem (a : ndarray) (i : Z) : Py.result float :=
  let n := Z.of_nat (length a) in
  if ((i <? - n) || (n <=? i))%Z then Py.Raise Py.IndexError
  else match nth_error a (Z.to_nat (if (i <? 0)%Z then i + n else i)) with
       | Some c => Py.Ok (value c)
       | None => Py.Raise Py.IndexError
       end.

End Np.

(** ** make_phase_portrait_emergent_time.py *)

Module PhasePortrait.
Import Py.
Local Open Scope py_scope.
Local Open Scope float_scope.

(** What the allocator does with the two [np.empty] requests of one
    run (lines 36 and 37): whether it serves a request for that many
    elements. *)
Record allocator : Type :=
  { serves_xs : Z -> bool; serves_vs : Z -> bool }.

(** The contents of the memory that the two [np.empty] calls of one
    run hand out. *)
Record memory : Type := { junk_xs : nat -> float; junk_vs : nat -> float }.

(** The variables the loop of [integrate_vdp] updates. *)
Record locals : Type :=
  { x : float; v : float; xs : Np.ndarray; vs : Np.ndarray }.

(** Line 44: [a = mu * (1.0 - x * x) * v - x]. *)
Definition accel (mu x v : float) : float := mu * (1 - x * x) * v - x.

(** Lines 50-52: the progress report of iteration [i]. *)
Definition report (show_progress : bool) (checkpoint steps i : Z) : M unit :=
  if show_progress then
    r <- lift (mod_ i checkpoint) ;;
    if ((r =? 0) || (i =? steps - 1))%Z then
      q <- lift (truediv (100 * (i + 1)) steps) ;;
      pct <- lift (int q) ;;
      print (Integrating pct)
    else ret tt
  else ret tt.

(** Lines 44-52: one iteration of the loop. *)
Definition body (mu dt : float) (steps checkpoint : Z) (show_progress : bool)
           (i : Z) (s : locals) : M locals :=
  let a := accel mu (x s) (v s) in
  let v := v s + a * dt in
  let x := x s + v * dt in
  xs <- lift (Np.setitem (xs s) i x) ;;
  vs <- lift (Np.setitem (vs s) i v) ;;
  report show_progress checkpoint steps i ;;
  ret {| x := x; v := v; xs := xs; vs := vs |}.

(** Lines 27-57. *)
Definition integrate_vdp (heap : allocator) (mem : memory) (mu dt : float)
           (steps : Z) (x0 v0 : float) (show_progress : bool)
  : M (Np.ndarray * Np.ndarray) :=
  let x := x0 in
  let v := v0 in
  xs <- lift (Np.empty (serves_xs heap steps) (junk_xs mem) steps) ;;
  vs <- lift (Np.empty (serves_vs heap steps) (junk_vs mem) steps) ;;
  c <- lift (floordiv steps 20) ;;
  let checkpoint := Z.max 1 c in
  s <- for_each (range steps) (body mu dt steps checkpoint show_progress)
         {| x := x; v := v; xs := xs; vs := vs |} ;;
  (if show_progress then print Done else ret tt) ;;
  ret (PhasePortrait.xs s, PhasePortrait.vs s).

(** What [main] computes at lines 91-96 from the two arrays and
    [args.transient]. *)
Record segments : Type :=
  { transient : Z;
    xs_tr : Np.ndarray; vs_tr : Np.ndarray;
    xs_cy : Np.ndarray; vs_cy : Np.ndarray }.

(** Lines 91-96 of [main]. *)
Definition split_transient (xs vs : Np.ndarray) (transient : Z) : segments :=
  let transient := Z.max 0 (Z.min transient (len xs - 1)) in
  {| transient := transient;
     xs_tr := slice_to xs transient;
     vs_tr := slice_to vs transient;
     xs_cy := slice_from xs transient;
     vs_cy := slice_from vs transient |}.

(** An allocator that serves every request, and one that serves
    none, for concrete runs. *)
Definition roomy : allocator :=
  {| serves_xs := fun _ => true; serves_vs := fun _ => true |}.

Definition exhausted : allocator :=
  {| serves_xs := fun _ => false; serves_vs := fun _ => false |}.

(** Some contents of uninitialised memory, for concrete runs. *)
Definition stale : memory :=
  {| junk_xs := fun k => if Nat.even k then 7 else infinity;
     junk_vs := fun _ => nan |}.

(** The sequences one run hands to its caller: [return xs, vs]. *)
Definition series (r : Np.ndarray * Np.ndarray) : list (list float) :=
  [Np.values (fst r); Np.values (snd r)].

End PhasePortrait.

(** ** phase_limit_cycle.py *)

Module PhaseLimitCycle.
Local Open Scope float_scope.

(** Lines 6-9. *)
Definition epsilon : float := 0.3.
Definition omega0 : float := 1.0.
Definition dt : float := 0.01.
Definition steps : Z := 20000.

(** The variables the loop updates (lines 12-15 initialise them). *)
Record globals : Type :=
  { phi : float; phidot : float; phi_list : list float }.

Definition init : globals :=
  {| phi := 0.1; phidot := 0.0; phi_list := [] |}.

Section Libm.

(** The C library's [sin] and [pow], which [np.sin] and [**] on
    Python and numpy floats call.  Nothing is assumed about their
    values. *)
Variable sin : float -> float.
Variable pow : float -> float -> float.

(** Line 18:
    [phiddot = -epsilon*(phi**2 - 1)*phidot - omega0**2*np.sin(phi)]. *)
Definition phiddot (phi phidot : float) : float :=
  - epsilon * (pow phi 2 - 1) * phidot - pow omega0 2 * sin phi.

(** Lines 18-21: one iteration of the loop. *)
Definition body (g : globals) : globals :=
  let phiddot := phiddot (phi g) (phidot g) in
  let phidot := phidot g + phiddot * dt in
  let phi := phi g + phidot * dt in
  {| phi := phi; phidot := phidot; phi_list := phi_list g ++ [phi] |}.

(** [for _ in l: body]. *)
Fixpoint for_each (l : list Z) (g : globals) : globals :=
  match l with
  | [] => g
  | _ :: l' => for_each l' (body g)
  end.

(** Lines 17-21, for the first [n] of the [steps] iterations
    ([trange(n)] iterates over [range(n)] and draws a progress bar). *)
Definition loop (n : Z) : globals := for_each (Py.range n) init.

(** Lines 5-23: the script up to [phi_arr = np.array(phi_list)]. *)
Definition phi_arr : list float := phi_list (loop steps).

(** The sequences one run of the loop fills: [phi_list] only;
    [phidot] is overwritten in place. *)
Definition series (g : globals) : list (list float) := [phi_list g].

End Libm.

End PhaseLimitCycle.

(** ** [main] of make_phase_portrait_emergent_time.py

    The numeric path of [main]: the call of [integrate_vdp], the split
    and the choice of the points the annotations refer to.  Argument
    parsing, the creation of the output directory and the matplotlib
    calls are left out. *)

Module Main.
Import Py.
Local Open Scope py_scope.

(** Sequencing of operations that may raise but print nothing. *)
Definition and_then {A B} (r : result A) (f : A -> result B) : result B :=
  match r with
  | Ok a => f a
  | Raise e => Raise e
  end.

Notation "x <~ r ;; k" := (and_then r (fun x => k))
  (at level 61, r at next level, right associativity) : py_scope.

(** The numeric fields of [args] (lines 62-68 and 72). *)
Record arguments : Type :=
  { mu : float; dt : float; steps : Z; x0 : float; v0 : float;
    transient : Z; no_progress : bool }.

(** The points the last three annotations refer to. *)
Record annotations : Type :=
  { pt1 : float * float; pt2 : float * float; arrow : float * float }.

(** Lines 138-145: two representative points of the limit cycle. *)
Definition cycle_points (xs vs : Np.ndarray) (s : PhasePortrait.segments)
  : result ((float * float) * (float * float)) :=
  let xs_cy := PhasePortrait.xs_cy s in
  let vs_cy := PhasePortrait.vs_cy s in
  if (10 <? len xs_cy)%Z then
    idx1 <~ floordiv (len xs_cy) 5 ;;
    idx2 <~ floordiv (len xs_cy) 2 ;;
    a <~ Np.getitem xs_cy idx1 ;;
    b <~ Np.getitem vs_cy idx1 ;;
    c <~ Np.getitem xs_cy idx2 ;;
    d <~ Np.getitem vs_cy idx2 ;;
    Ok ((a, b), (c, d))
  else
    a <~ Np.getitem xs (-1) ;;
    b <~ Np.getitem vs (-1) ;;
    c <~ Np.getitem xs (-1) ;;
    d <~ Np.getitem vs (-1) ;;
    Ok ((a, b), (c, d)).

(** Line 166:
    [j = min(4000, len(xs_tr) - 1) if len(xs_tr) > 0 else 0]. *)
Definition arrow_index (s : PhasePortrait.segments) : Z :=
  if (0 <? len (PhasePortrait.xs_tr s))%Z
  then Z.min 4000 (len (PhasePortrait.xs_tr s) - 1)
  else 0%Z.

(** Lines 138-145 and 166-169. *)
Definition annotation_points (xs vs : Np.ndarray) (s : PhasePortrait.segments)
  : result annotations :=
  p <~ cycle_points xs vs s ;;
  let j := arrow_index s in
  e <~ Np.getitem xs j ;;
  f <~ Np.getitem vs j ;;
  Ok {| pt1 := fst p; pt2 := snd p; arrow := (e, f) |}.

(** Lines 81-96, 138-145 and 166-169 of [main]: the integration, the
    split and the points handed to the annotations.  The calls into
    [argparse], [os] and [matplotlib] around them compute none of these
    values and are not modelled; they are taken to return. *)
Definition main (heap : PhasePortrait.allocator) (mem : PhasePortrait.memory)
           (args : arguments)
  : M (PhasePortrait.segments * annotations) :=
  r <- PhasePortrait.integrate_vdp heap mem (mu args) (dt args) (steps args)
         (x0 args) (v0 args) (negb (no_progress args)) ;;
  let xs := fst r in
  let vs := snd r in
  let s := PhasePortrait.split_transient xs vs (transient args) in
  a <- lift (annotation_points xs vs s) ;;
  ret (s, a).

End Main.

(** ** The recurrence the integrators are meant to follow

    Semi-implicit (symplectic) Euler as the design describes it:
    [a = law(state)], then [velocity += a * dt], then
    [position += velocity * dt]. *)

Module Euler.
Local Open Scope float_scope.

Section Scheme.

(** The acceleration law and the step size. *)
Variable law : float -> float -> float.
Variable dt : float.

(** Semi-implicit Euler: the acceleration comes from the old state,
    the velocity is advanced with it, and the position is advanced
    with the new velocity. *)
Definition step (p : float * float) : float * float :=
  let a := law (fst p) (snd p) in
  let v' := snd p + a * dt in
  let x' := fst p + v' * dt in
  (x', v').

(** The state after [n] steps from [p]. *)
Fixpoint iterate (n : nat) (p : float * float) : float * float :=
  match n with
  | O => p
  | S n' => iterate n' (step p)
  end.

(** The states after steps [1, 2, ..., n] from [p]. *)
Fixpoint trajectory (n : nat) (p : float * float) : list (float * float) :=
  match n with
  | O => []
  | S n' => step p :: trajectory n' (step p)
  end.

(** Plain forward Euler, for contrast: the position is advanced
    with the old velocity. *)
Definition forward_step (p : float * float) : float * float :=
  let a := law (fst p) (snd p) in
  (fst p + snd p * dt, snd p + a * dt).

End Scheme.

End Euler.

(** * Proofs *)

(** ** Binary64 rounding, as far as the progress percentage needs it *)

Section Rounding.
Local Open Scope Z_scope.

Lemma digits2_pos_size p : digits2_pos p = Pos.size p.
Proof. induction p; simpl; congruence. Qed.

Lemma Zdigits2_bounds m : 0 < m -> 2 ^ (Zdigits2 m - 1) <= m < 2 ^ Zdigits2 m.
Proof.
  destruct m as [|p|p]; try lia. intros _. simpl Zdigits2.
  rewrite digits2_pos_size.
  assert (H := Z.log2_spec (Zpos p) ltac:(lia)).
  assert (E : Zpos (Pos.size p) = Z.succ (Z.log2 (Zpos p))).
  { destruct p; simpl; lia. }
  rewrite E. replace (Z.succ (Z.log2 (Z.pos p)) - 1) with (Z.log2 (Zpos p)) by lia.
  exact H.
Qed.

Lemma Zdigits2_nonneg m : 0 <= Zdigits2 m.
Proof. destruct m; simpl; lia. Qed.

Lemma Zdigits2_le m d : 0 <= m -> 0 <= d -> m < 2 ^ d -> Zdigits2 m <= d.
Proof.
  intros Hm Hd H. destruct (Z.eq_dec m 0) as [->|N]; [simpl; lia|].
  destruct (Zdigits2_bounds m ltac:(lia)) as [H1 _].
  destruct (Z.le_gt_cases (Zdigits2 m) d) as [L|L]; auto.
  assert (2 ^ d <= 2 ^ (Zdigits2 m - 1)) by (apply Z.pow_le_mono_r; lia). lia.
Qed.

Lemma Zdigits2_ge m d : 0 < m -> 2 ^ (d - 1) <= m -> d <= Zdigits2 m.
Proof.
  intros Hm H. destruct (Zdigits2_bounds m Hm) as [_ H2].
  destruct (Z.le_gt_cases d (Zdigits2 m)) as [L|L]; auto.
  assert (2 ^ Zdigits2 m <= 2 ^ (d - 1)).
  { apply Z.pow_le_mono_r; [lia|]. lia. }
  lia.
Qed.

Lemma Zdigits2_mono m n : 0 <= m <= n -> Zdigits2 m <= Zdigits2 n.
Proof.
  intros [H1 H2]. destruct (Z.eq_dec n 0) as [->|N].
  - replace m with 0 by lia. lia.
  - apply Zdigits2_le; [lia|apply Zdigits2_nonneg|].
  destruct (Zdigits2_bounds n ltac:(lia)). lia.
Qed.

(** Shifting a rounding record right halves its mantissa. *)
Lemma shr_1_m mrs : 0 <= shr_m mrs -> shr_m (shr_1 mrs) = Z.div2 (shr_m mrs).
Proof. destruct mrs as [m r s]. simpl. destruct m as [|[p|p|]|p]; simpl; try reflexivity; lia. Qed.

Lemma iter_pos_shr_1 p : forall mrs, 0 <= shr_m mrs ->
shr_m (iter_pos shr_1 p mrs) = shr_m mrs / 2 ^ Zpos p.
Proof.
  assert (D2 : forall a, 0 <= a -> 0 <= Z.div2 a) by (intros; rewrite Z.div2_div; apply Z.div_pos; lia).
  assert (DP : forall a k, 0 <= a -> 0 <= a / 2 ^ Zpos k).
  { intros. apply Z.div_pos; [lia|]. apply Z.pow_pos_nonneg; lia. }
  induction p as [p IH|p IH|]; intros mrs H; simpl iter_pos.
  - rewrite IH. 2:{ rewrite IH, shr_1_m; auto. rewrite shr_1_m; auto. }
  rewrite IH by (rewrite shr_1_m; auto). rewrite shr_1_m by auto.
  rewrite Z.div2_div. rewrite !Z.div_div by (try lia; apply Z.pow_pos_nonneg; lia).
  f_equal. rewrite <- Z.pow_add_r by lia. rewrite <- Z.pow_succ_r by lia. f_equal. lia.
  - rewrite IH by (rewrite IH; auto). rewrite IH by auto.
  rewrite !Z.div_div by (try lia; apply Z.pow_pos_nonneg; lia).
  f_equal. rewrite <- Z.pow_add_r by lia. f_equal. lia.
  - rewrite shr_1_m by auto. rewrite Z.div2_div. reflexivity.
Qed.

Lemma shr_record_of_loc_m m l : shr_m (shr_record_of_loc m l) = m.
Proof. destruct l as [|[]]; reflexivity. Qed.



Let fexp := SpecFloat.fexp prec emax.

Lemma fexp_eq k : fexp k = Z.max (k - 53) (-1074).
Proof. reflexivity. Qed.

Ltac fexp_lia :=
  unfold fexp, SpecFloat.fexp, SpecFloat.emin, prec, emax in *; lia.

Lemma fexp_mono a b : a <= b -> fexp a <= fexp b.
Proof. rewrite !fexp_eq. lia. Qed.

(** One rounding shift: exponent and mantissa afterwards. *)
Lemma shr_fexp_spec m e l mrs e' :
  0 <= m -> shr_fexp prec emax m e l = (mrs, e') ->
  let n := Z.max 0 (fexp (Zdigits2 m + e) - e) in
  shr_m mrs = m / 2 ^ n /\ e' = e + n.
Proof.
  intros Hm. unfold shr_fexp, shr. fold fexp.
  destruct (fexp (Zdigits2 m + e) - e) as [|p|p] eqn:E; intros [= <- <-]; cbn zeta.
  - rewrite shr_record_of_loc_m. simpl. rewrite Z.div_1_r. lia.
  - rewrite iter_pos_shr_1 by (rewrite shr_record_of_loc_m; auto).
    rewrite shr_record_of_loc_m. rewrite Z.max_r by lia. auto.
  - rewrite shr_record_of_loc_m. rewrite Z.max_l by lia. simpl. rewrite Z.div_1_r. lia.
Qed.

(** After a rounding shift of a mantissa that has digits to spare,
    the result is canonical. *)
Lemma shr_fexp_canonical m e l mrs e' :
  0 <= m -> e <= fexp (Zdigits2 m + e) ->
  shr_fexp prec emax m e l = (mrs, e') ->
  0 <= shr_m mrs /\ fexp (Zdigits2 (shr_m mrs) + e') = e' /\
  e' = fexp (Zdigits2 m + e) /\
  Zdigits2 (shr_m mrs) + e' <= Z.max (Zdigits2 m + e) e'.
Proof.
  intros Hm Hc H. apply shr_fexp_spec in H; auto. cbn zeta in H.
  destruct H as [Hq He].
  set (n := Z.max 0 (fexp (Zdigits2 m + e) - e)) in *.
  assert (Hn : n = fexp (Zdigits2 m + e) - e) by lia.
  assert (P2 : 0 < 2 ^ n) by (apply Z.pow_pos_nonneg; lia).
  assert (Q0 : 0 <= m / 2 ^ n) by (apply Z.div_pos; lia).
  rewrite Hq. split; [auto|]. 
  assert (E' : e' = fexp (Zdigits2 m + e)) by lia.
  destruct (Z.eq_dec (m / 2 ^ n) 0) as [Z|NZ].
  - rewrite Z. simpl Zdigits2. 
    assert (m < 2 ^ n). { apply Z.div_small_iff in Z; lia. }
    assert (Zdigits2 m <= n) by (apply Zdigits2_le; lia).
    clearbody n. repeat split; fexp_lia.
  - assert (D : Zdigits2 (m / 2 ^ n) = Zdigits2 m - n).
    { assert (0 < m) by (destruct (Z.eq_dec m 0) as [->|]; [rewrite Z.div_0_l in NZ; lia|lia]).
      destruct (Zdigits2_bounds m H) as [B1 B2].
      assert (n < Zdigits2 m).
      { destruct (Z.le_gt_cases (Zdigits2 m) n); auto.
        exfalso. apply NZ. apply Z.div_small. split; [lia|].
        assert (2 ^ Zdigits2 m <= 2 ^ n) by (apply Z.pow_le_mono_r; lia). lia. }
      assert (EQ : 2 ^ Zdigits2 m = 2 ^ (Zdigits2 m - n) * 2 ^ n).
      { rewrite <- Z.pow_add_r by lia. f_equal. lia. }
      assert (EQ1 : 2 ^ (Zdigits2 m - 1) = 2 ^ (Zdigits2 m - n - 1) * 2 ^ n).
      { rewrite <- Z.pow_add_r by lia. f_equal. lia. }
      apply Z.le_antisymm.
      + apply Zdigits2_le; try lia. apply Z.div_lt_upper_bound; lia.
      + apply Zdigits2_ge; try lia. apply Z.div_le_lower_bound; lia. }
    rewrite D. replace (Zdigits2 m - n + e') with (Zdigits2 m + e) by lia.
    repeat split; lia.
Qed.

Lemma round_nearest_even_bounds m l :
  m <= round_nearest_even m l <= m + 1.
Proof. destruct l as [|[]]; simpl; try lia. destruct (Z.even m); lia. Qed.

Lemma Zdigits2_succ m : 0 <= m -> Zdigits2 (m + 1) <= Zdigits2 m + 1.
Proof.
  intros Hm. destruct (Z.eq_dec m 0) as [->|N]; [simpl; lia|].
  destruct (Zdigits2_bounds m ltac:(lia)) as [_ B].
  apply Zdigits2_le; try lia. pose proof (Zdigits2_nonneg m). lia.
  rewrite Z.pow_add_r by (try lia; apply Zdigits2_nonneg). lia.
Qed.

(** Rounding a mantissa with digits to spare gives a valid float, and
    a finite one when the value is below [2 ^ (emax - 1)]. *)
Lemma binary_round_aux_valid s m e l :
  0 <= m -> e <= fexp (Zdigits2 m + e) ->
  valid_binary (binary_round_aux prec emax s m e l) = true.
Proof.
  intros Hm Hc. unfold binary_round_aux.
  destruct (shr_fexp prec emax m e l) as [mrs' e'] eqn:E1.
  destruct (shr_fexp_canonical _ _ _ _ _ Hm Hc E1) as (P1 & C1 & _ & _).
  pose proof (round_nearest_even_bounds (shr_m mrs') (loc_of_shr_record mrs')) as R.
  set (m1 := round_nearest_even (shr_m mrs') (loc_of_shr_record mrs')) in *.
  destruct (shr_fexp prec emax m1 e' loc_Exact) as [mrs'' e''] eqn:E2.
  assert (Hc1 : e' <= fexp (Zdigits2 m1 + e')).
  { rewrite <- C1 at 1. apply fexp_mono. pose proof (Zdigits2_mono (shr_m mrs') m1). lia. }
  destruct (shr_fexp_canonical _ _ _ _ _ (proj1 (conj (Z.le_trans _ _ _ P1 (proj1 R)) I)) Hc1 E2) as (P2 & C2 & _ & _).
  destruct (shr_m mrs'') as [|p|p] eqn:M; try lia; try reflexivity.
  destruct (Z.leb_spec e'' (emax - prec)); try reflexivity.
  simpl. unfold bounded, canonical_mantissa. fold fexp. simpl Zdigits2 in C2.
  rewrite C2, Z.eqb_refl, andb_true_l. now apply Z.leb_le.
Qed.

Lemma binary_round_aux_finite s m e l :
  0 <= m -> e <= fexp (Zdigits2 m + e) ->
  Zdigits2 m + e < emax ->
  match binary_round_aux prec emax s m e l with
  | S754_zero _ | S754_finite _ _ _ => True
  | _ => False
  end.
Proof.
  intros Hm Hc Hb. unfold binary_round_aux.
  destruct (shr_fexp prec emax m e l) as [mrs' e'] eqn:E1.
  destruct (shr_fexp_canonical _ _ _ _ _ Hm Hc E1) as (P1 & C1 & X1 & B1).
  pose proof (round_nearest_even_bounds (shr_m mrs') (loc_of_shr_record mrs')) as R.
  set (m1 := round_nearest_even (shr_m mrs') (loc_of_shr_record mrs')) in *.
  destruct (shr_fexp prec emax m1 e' loc_Exact) as [mrs'' e''] eqn:E2.
  assert (Hc1 : e' <= fexp (Zdigits2 m1 + e')).
  { rewrite <- C1 at 1. apply fexp_mono. pose proof (Zdigits2_mono (shr_m mrs') m1). lia. }
  destruct (shr_fexp_canonical _ _ _ _ _ (proj1 (conj (Z.le_trans _ _ _ P1 (proj1 R)) I)) Hc1 E2) as (P2 & C2 & X2 & B2).
  assert (D1 : Zdigits2 m1 <= Zdigits2 (shr_m mrs') + 1).
  { pose proof (Zdigits2_succ (shr_m mrs') P1).
    pose proof (Zdigits2_mono m1 (shr_m mrs' + 1)). lia. }
  destruct (shr_m mrs'') as [|p|p] eqn:M; try lia; auto.
  destruct (Z.leb_spec e'' (emax - prec)); auto.
  fexp_lia.
Qed.


(** The quotient of two positive integers whose ratio is at most
    [100] rounds to a valid finite binary64 number. *)
Lemma SF64div_small (a b : positive) :
  Zpos a <= 100 * Zpos b ->
  let q := SF64div (Py.Z2SF (Zpos a)) (Py.Z2SF (Zpos b)) in
  valid_binary q = true /\
  match q with S754_zero _ | S754_finite _ _ _ => True | _ => False end.
Proof.
  intros Hab. cbn zeta. unfold SF64div, Py.Z2SF, SFdiv, SFdiv_core_binary.
  fold fexp. rewrite !Z.add_0_r, !Z.sub_0_r, Z.sub_0_l.
  set (d1 := Zdigits2 (Zpos a)). set (d2 := Zdigits2 (Zpos b)).
  destruct (Zdigits2_bounds (Zpos a) ltac:(lia)) as [A1 A2].
  destruct (Zdigits2_bounds (Zpos b) ltac:(lia)) as [B1 B2].
  fold d1 in A1, A2. fold d2 in B1, B2.
  assert (D1 : 0 < d1) by (unfold d1; simpl; lia).
  assert (D2 : 0 < d2) by (unfold d2; simpl; lia).
  assert (D12 : d1 - d2 <= 7).
  { destruct (Z.le_gt_cases (d1 - d2) 7) as [|G]; auto. exfalso.
    assert (2 ^ (d2 + 7) <= 2 ^ (d1 - 1)) by (apply Z.pow_le_mono_r; lia).
    rewrite Z.pow_add_r in H by lia. change (2 ^ 7) with 128 in H. lia. }
  set (e0 := Z.min (fexp (d1 - d2)) 0).
  assert (E0 : e0 = fexp (d1 - d2)) by (unfold e0; fexp_lia).
  assert (S0 : 0 < - e0) by (rewrite E0; fexp_lia).
  destruct (- e0) as [|s|s] eqn:S; try lia.
  rewrite Z.shiftl_mul_pow2 by lia.
  destruct (Z.div_eucl (Zpos a * 2 ^ Zpos s) (Zpos b)) as [q r] eqn:DE.
  pose proof (Z_div_mod (Zpos a * 2 ^ Zpos s) (Zpos b) ltac:(lia)) as DM.
  rewrite DE in DM. destruct DM as [DM1 DM2].
  assert (P2 : 0 < 2 ^ Zpos s) by (apply Z.pow_pos_nonneg; lia).
  assert (Q0 : 0 <= q) by nia.
  assert (UB : Zdigits2 q + e0 <= 8).
  { destruct (Z.le_gt_cases 0 (d1 + Zpos s - d2 + 1)) as [X|X].
    - assert (Zdigits2 q <= d1 + Zpos s - d2 + 1); [|lia].
      apply Zdigits2_le; try lia.
      assert (EQ : 2 ^ (d1 + Zpos s - d2 + 1) * 2 ^ (d2 - 1) = 2 ^ d1 * 2 ^ Zpos s).
      { rewrite <- !Z.pow_add_r by lia. f_equal. lia. }
      assert (0 < 2 ^ (d2 - 1)) by (apply Z.pow_pos_nonneg; lia).
      assert (0 < 2 ^ (d1 + Zpos s - d2 + 1)) by (apply Z.pow_pos_nonneg; lia).
      nia.
    - assert (q = 0); [|subst q; simpl; lia].
      assert (2 ^ (d1 + Zpos s) <= 2 ^ (d2 - 1)) by (apply Z.pow_le_mono_r; lia).
      rewrite Z.pow_add_r in H by lia. nia. }
  assert (LB : e0 <= fexp (Zdigits2 q + e0)).
  { destruct (Z.eq_dec e0 (-1074)) as [->|NE]; [fexp_lia|].
    assert (ES : Zpos s = 53 - (d1 - d2)) by fexp_lia.
    assert (53 <= Zdigits2 q); [|fexp_lia].
    assert (2 ^ 52 <= q).
    { assert (EQ : 2 ^ (d1 - 1) * 2 ^ Zpos s = 2 ^ 52 * 2 ^ d2).
      { rewrite <- !Z.pow_add_r by lia. f_equal. lia. }
      assert (0 < 2 ^ d2) by (apply Z.pow_pos_nonneg; lia).
      assert (0 < 2 ^ 52) by (apply Z.pow_pos_nonneg; lia).
      nia. }
    apply Zdigits2_ge; [|exact H]. assert (0 < 2 ^ 52) by (apply Z.pow_pos_nonneg; lia). lia. }
  split.
  - now apply binary_round_aux_valid.
  - apply binary_round_aux_finite; auto. unfold emax. lia.
Qed.

End Rounding.

(** ** The Python runtime *)

Section Runtime.
Import Py.
Local Open Scope Z_scope.

Lemma range_nonpos n : n <= 0 -> range n = [].
Proof. intros H. unfold range. now replace (Z.to_nat n) with O by lia. Qed.

Lemma range_length n : 0 <= n -> len (range n) = n.
Proof. intros H. unfold len, range. rewrite length_map, length_seq. lia. Qed.

Lemma range_bounds n i : In i (range n) -> 0 <= i < n.
Proof.
  unfold range. rewrite in_map_iff. intros (k & <- & H).
  apply in_seq in H. lia.
Qed.

Lemma mod_ok a b : b <> 0 -> mod_ a b = Ok (a mod b).
Proof. intros H. unfold mod_. now destruct (Z.eqb_spec b 0). Qed.

(** Inside the loop the percentage is computed without raising. *)
Lemma pct_ok steps i :
  0 <= i < steps ->
  exists q pct, truediv (100 * (i + 1)) steps = Ok q /\ int q = Ok pct.
Proof.
  intros H. unfold truediv.
  destruct (Z.eqb_spec steps 0) as [|_]; [lia|].
  destruct (100 * (i + 1)) as [|a|a] eqn:A; try lia.
  destruct steps as [|b|b]; try lia.
  destruct (SF64div_small a b ltac:(lia)) as [V F].
  destruct (SF64div (Z2SF (Zpos a)) (Z2SF (Zpos b))) as [s|s| |s m e] eqn:Q;
    try contradiction.
  - exists (SF2Prim (S754_zero s)), 0. split; [reflexivity|].
    unfold int. now rewrite Prim2SF_SF2Prim.
  - eexists _, _. split; [reflexivity|].
    unfold int. rewrite Prim2SF_SF2Prim by exact V. reflexivity.
Qed.

End Runtime.

(** ** numpy arrays *)

Section Arrays.
Import Py.
Local Open Scope Z_scope.

Lemma store_app pre c suf val :
  Np.store (length pre) val (pre ++ c :: suf) = pre ++ Np.assign c val :: suf.
Proof. induction pre as [|d pre IH]; simpl; [reflexivity|now rewrite IH]. Qed.

(** Assigning to the first element that follows [pre]. *)
Lemma setitem_app pre c suf val :
  Np.setitem (pre ++ c :: suf) (Z.of_nat (length pre)) val
  = Ok (pre ++ Np.assign c val :: suf).
Proof.
  unfold Np.setitem. rewrite length_app. simpl length.
  destruct (Z.ltb_spec (Z.of_nat (length pre))
              (- Z.of_nat (length pre + S (length suf)))); [lia|].
  destruct (Z.leb_spec (Z.of_nat (length pre + S (length suf)))
              (Z.of_nat (length pre))); [lia|].
  destruct (Z.ltb_spec (Z.of_nat (length pre)) 0); [lia|].
  simpl. now rewrite Nat2Z.id, store_app.
Qed.

(** The counts [np.empty] accepts for float64 are those below
    [2 ^ 60]. *)
Lemma too_big_iff n : (Np.max_intp <? n * Np.itemsize) = (2 ^ 60 <=? n).
Proof.
  unfold Np.max_intp, Np.itemsize.
  destruct (Z.ltb_spec (2 ^ 63 - 1) (n * 8)), (Z.leb_spec (2 ^ 60) n);
    try reflexivity; lia.
Qed.

Lemma empty_served junk n :
  0 <= n < 2 ^ 60 ->
  Np.empty true junk n
  = Ok (map (fun k => {| Np.value := junk k; Np.nstores := 0 |})
            (seq 0 (Z.to_nat n))).
Proof.
  intros H. unfold Np.empty. rewrite too_big_iff.
  destruct (Z.ltb_spec n 0); [lia|].
  destruct (Z.leb_spec (2 ^ 60) n); [lia|reflexivity].
Qed.

Lemma empty_neg served junk n :
  n < 0 -> Np.empty served junk n = Raise ValueError.
Proof. intros H. unfold Np.empty. destruct (Z.ltb_spec n 0); [reflexivity|lia]. Qed.

Lemma empty_too_big served junk n :
  2 ^ 60 <= n -> Np.empty served junk n = Raise ValueError.
Proof.
  intros H. unfold Np.empty. rewrite too_big_iff.
  destruct (Z.ltb_spec n 0); [reflexivity|].
  destruct (Z.leb_spec (2 ^ 60) n); [reflexivity|lia].
Qed.

Lemma empty_refused junk n :
  0 <= n < 2 ^ 60 -> Np.empty false junk n = Raise MemoryError.
Proof.
  intros H. unfold Np.empty. rewrite too_big_iff.
  destruct (Z.ltb_spec n 0); [lia|].
  destruct (Z.leb_spec (2 ^ 60) n); [lia|reflexivity].
Qed.


(** Assigning once to every element of a fresh array. *)
Lemma assign_fresh junk vals : forall k,
  map (fun cv => Np.assign (fst cv) (snd cv))
      (combine (map (fun k => {| Np.value := junk k; Np.nstores := 0 |})
                    (seq k (length vals))) vals)
  = Np.filled vals.
Proof.
  induction vals as [|val vals IH]; intros k; simpl; [reflexivity|].
  now rewrite IH.
Qed.

Lemma filled_length vals : length (Np.filled vals) = length vals.
Proof. apply length_map. Qed.

Lemma filled_values vals : Np.values (Np.filled vals) = vals.
Proof.
  unfold Np.values, Np.filled. rewrite map_map. simpl. apply map_id.
Qed.


End Arrays.

(** ** The recurrence *)

Section Recurrence.
Variable law : float -> float -> float.
Variable dt : float.

Lemma trajectory_length n : forall p,
  length (Euler.trajectory law dt n p) = n.
Proof. induction n as [|n IH]; intros p; simpl; [reflexivity|now rewrite IH]. Qed.

(** Entry [i] of a trajectory is the state after [i + 1] steps. *)
Lemma trajectory_nth n : forall p i,
  (i < n)%nat ->
  nth_error (Euler.trajectory law dt n p) i = Some (Euler.iterate law dt (S i) p).
Proof.
  induction n as [|n IH]; intros p i H; [lia|].
  destruct i as [|i]; simpl; [reflexivity|].
  apply IH. lia.
Qed.

Lemma trajectory_snoc n : forall p,
  Euler.trajectory law dt (S n) p
  = Euler.trajectory law dt n p ++ [Euler.iterate law dt (S n) p].
Proof.
  induction n as [|n IH]; intros p; [reflexivity|].
  change (Euler.trajectory law dt (S (S n)) p)
    with (Euler.step law dt p :: Euler.trajectory law dt (S n) (Euler.step law dt p)).
  rewrite IH. reflexivity.
Qed.

Lemma iterate_snoc n : forall p,
  Euler.iterate law dt (S n) p = Euler.step law dt (Euler.iterate law dt n p).
Proof. induction n as [|n IH]; intros p; [reflexivity|]. simpl. now rewrite <- IH. Qed.

End Recurrence.

(** ** [integrate_vdp] *)

Section VanDerPol.
Import Py PhasePortrait.
Local Open Scope Z_scope.

Variables (mu dt : float) (steps checkpoint : Z) (show_progress : bool).
Hypothesis checkpoint_pos : 0 < checkpoint.

(** What iteration [i] prints. *)
Let log (i : Z) : stdout := snd (report show_progress checkpoint steps i []).

Lemma report_spec i out :
  0 <= i < steps ->
  report show_progress checkpoint steps i out = (Ok tt, out ++ log i).
Proof.
  intros H. unfold log, report, bind, lift, print, ret.
  destruct show_progress; [|now rewrite app_nil_r].
  rewrite mod_ok by lia.
  destruct ((i mod checkpoint =? 0) || (i =? steps - 1))%bool;
    [|now rewrite app_nil_r].
  destruct (pct_ok steps i H) as (q & pct & Q & P).
  rewrite Q, P. reflexivity.
Qed.

Lemma report_silent i out :
  show_progress = false ->
  report show_progress checkpoint steps i out = (Ok tt, out).
Proof. intros ->. reflexivity. Qed.

Let law := accel mu.

(** One iteration on arrays whose next free elements are [c] and [d]. *)
Lemma body_spec px pv c d sx sv x v out :
  length px = length pv ->
  Z.of_nat (length px) < steps ->
  body mu dt steps checkpoint show_progress (Z.of_nat (length px))
       {| x := x; v := v; xs := px ++ c :: sx; vs := pv ++ d :: sv |} out
  = (Ok {| x := fst (Euler.step law dt (x, v));
           v := snd (Euler.step law dt (x, v));
           xs := px ++ Np.assign c (fst (Euler.step law dt (x, v))) :: sx;
           vs := pv ++ Np.assign d (snd (Euler.step law dt (x, v))) :: sv |},
     out ++ log (Z.of_nat (length px))).
Proof.
  intros L H. unfold body. cbn [PhasePortrait.x PhasePortrait.v PhasePortrait.xs PhasePortrait.vs].
  unfold bind at 1, lift at 1. rewrite setitem_app.
  unfold bind at 1, lift at 1. rewrite L at 1. rewrite setitem_app.
  unfold bind at 1. rewrite report_spec by lia.
  reflexivity.
Qed.

(** The loop, from iteration [length px] on, over the free elements
    [sx] and [sv]. *)
Lemma loop_spec : forall sx sv px pv x v out,
  length px = length pv ->
  length sx = length sv ->
  Z.of_nat (length px + length sx) <= steps ->
  for_each (map Z.of_nat (seq (length px) (length sx)))
           (body mu dt steps checkpoint show_progress)
           {| x := x; v := v; xs := px ++ sx; vs := pv ++ sv |} out
  = (let tr := Euler.trajectory law dt (length sx) (x, v) in
     let p := Euler.iterate law dt (length sx) (x, v) in
     (Ok {| x := fst p; v := snd p;
            xs := px ++ map (fun cv => Np.assign (fst cv) (snd cv))
                            (combine sx (map fst tr));
            vs := pv ++ map (fun cv => Np.assign (fst cv) (snd cv))
                            (combine sv (map snd tr)) |},
      out ++ flat_map log (map Z.of_nat (seq (length px) (length sx))))).
Proof.
  induction sx as [|c sx IH]; intros sv px pv x v out L LS H.
  - destruct sv; [|discriminate]. cbn. now rewrite !app_nil_r.
  - destruct sv as [|d sv]; [discriminate|].
    cbn [length seq map for_each]. unfold bind at 1.
    rewrite body_spec by (cbn [length] in H; lia).
    replace (px ++ Np.assign c (fst (Euler.step law dt (x, v))) :: sx)
      with ((px ++ [Np.assign c (fst (Euler.step law dt (x, v)))]) ++ sx)
      by (now rewrite <- app_assoc).
    replace (pv ++ Np.assign d (snd (Euler.step law dt (x, v))) :: sv)
      with ((pv ++ [Np.assign d (snd (Euler.step law dt (x, v)))]) ++ sv)
      by (now rewrite <- app_assoc).
    replace (S (length px))
      with (length (px ++ [Np.assign c (fst (Euler.step law dt (x, v)))]))
      by (rewrite length_app; simpl; lia).
    rewrite IH.
    + cbn zeta. cbn [Euler.trajectory Euler.iterate map combine flat_map fst snd].
      rewrite <- !app_assoc. cbn [app].
      rewrite <- surjective_pairing. reflexivity.
    + rewrite !length_app. simpl. lia.
    + simpl in LS. lia.
    + rewrite length_app. cbn [length] in *. lia.
Qed.


End VanDerPol.

Section IntegrateVdp.
Import Py PhasePortrait.
Local Open Scope Z_scope.

Variables (heap : allocator) (mem : memory).
Variables (mu dt : float) (steps : Z) (x0 v0 : float).

(** A negative step count is refused by the first [np.empty]. *)
Lemma integrate_vdp_neg show_progress out :
  steps < 0 ->
  integrate_vdp heap mem mu dt steps x0 v0 show_progress out
  = (Raise ValueError, out).
Proof.
  intros H. unfold integrate_vdp, bind at 1, lift at 1.
  now rewrite empty_neg.
Qed.

(** So is a count of [2 ^ 60] or more. *)
Lemma integrate_vdp_too_big show_progress out :
  2 ^ 60 <= steps ->
  integrate_vdp heap mem mu dt steps x0 v0 show_progress out
  = (Raise ValueError, out).
Proof.
  intros H. unfold integrate_vdp, bind at 1, lift at 1.
  now rewrite empty_too_big.
Qed.

(** A request the allocator does not serve ends the run in
    [MemoryError]. *)
Lemma integrate_vdp_refused show_progress out :
  0 <= steps < 2 ^ 60 ->
  serves_xs heap steps && serves_vs heap steps = false ->
  integrate_vdp heap mem mu dt steps x0 v0 show_progress out
  = (Raise MemoryError, out).
Proof.
  intros H R. unfold integrate_vdp, bind at 1, lift at 1.
  destruct (serves_xs heap steps).
  - rewrite empty_served by assumption.
    unfold bind at 1, lift at 1. cbn [andb] in R. rewrite R.
    now rewrite empty_refused.
  - now rewrite empty_refused.
Qed.

(** Otherwise the run returns the trajectory of the recurrence, every
    element assigned once, and prints the progress reports. *)
Lemma integrate_vdp_spec show_progress out :
  0 <= steps < 2 ^ 60 ->
  serves_xs heap steps = true -> serves_vs heap steps = true ->
  integrate_vdp heap mem mu dt steps x0 v0 show_progress out
  = (let tr := Euler.trajectory (accel mu) dt (Z.to_nat steps) (x0, v0) in
     (Ok (Np.filled (map fst tr), Np.filled (map snd tr)),
      out ++ flat_map (fun i => snd (report show_progress (Z.max 1 (steps / 20))
                                            steps i []))
                      (range steps)
          ++ (if show_progress then [Done] else []))).
Proof.
  intros H Sx Sv. unfold integrate_vdp. rewrite Sx, Sv.
  unfold bind at 1, lift at 1. rewrite empty_served by assumption.
  unfold bind at 1, lift at 1. rewrite empty_served by assumption.
  unfold bind at 1, lift at 1, floordiv. cbn [Z.eqb].
  set (n := Z.to_nat steps).
  set (sx := map (fun k => {| Np.value := junk_xs mem k; Np.nstores := 0 |}) (seq 0 n)).
  set (sv := map (fun k => {| Np.value := junk_vs mem k; Np.nstores := 0 |}) (seq 0 n)).
  assert (Lx : length sx = n) by (unfold sx; now rewrite length_map, length_seq).
  assert (Lv : length sv = n) by (unfold sv; now rewrite length_map, length_seq).
  pose proof (loop_spec mu dt steps (Z.max 1 (steps / 20)) show_progress
                ltac:(lia) sx sv [] [] x0 v0 out eq_refl
                ltac:(congruence)) as LS.
  rewrite Lx in LS. cbn [length app Nat.add] in LS.
  unfold bind at 1. unfold range. fold n. rewrite LS by lia. clear LS.
  cbn zeta.
  pose proof (trajectory_length (accel mu) dt n (x0, v0)) as TL.
  assert (Fx : map (fun cv => Np.assign (fst cv) (snd cv))
                   (combine sx (map fst (Euler.trajectory (accel mu) dt n (x0, v0))))
               = Np.filled (map fst (Euler.trajectory (accel mu) dt n (x0, v0)))).
  { unfold sx. rewrite <- TL at 1.
    rewrite <- (length_map fst (Euler.trajectory (accel mu) dt n (x0, v0))).
    apply assign_fresh. }
  assert (Fv : map (fun cv => Np.assign (fst cv) (snd cv))
                   (combine sv (map snd (Euler.trajectory (accel mu) dt n (x0, v0))))
               = Np.filled (map snd (Euler.trajectory (accel mu) dt n (x0, v0)))).
  { unfold sv. rewrite <- TL at 1.
    rewrite <- (length_map snd (Euler.trajectory (accel mu) dt n (x0, v0))).
    apply assign_fresh. }
  rewrite Fx, Fv.
  destruct show_progress; unfold bind, print, ret;
    cbn [PhasePortrait.xs PhasePortrait.vs].
  - now rewrite <- app_assoc.
  - now rewrite !app_nil_r.
Qed.

(** The outcomes of a run: an exception of an [np.empty], with nothing
    printed, or the trajectory. *)
Lemma integrate_vdp_outcome :
  (exists e,
      (e = ValueError \/ e = MemoryError) /\
      forall mem' show_progress out,
        integrate_vdp heap mem' mu dt steps x0 v0 show_progress out
        = (Raise e, out)) \/
  (0 <= steps < 2 ^ 60 /\
   serves_xs heap steps = true /\ serves_vs heap steps = true).
Proof.
  destruct (Z.lt_ge_cases steps 0) as [N|N].
  - left. exists ValueError. split; [now left|].
    intros. unfold integrate_vdp, bind at 1, lift at 1. now rewrite empty_neg.
  - destruct (Z.lt_ge_cases steps (2 ^ 60)) as [B|B].
    + destruct (serves_xs heap steps && serves_vs heap steps) eqn:S.
      * right. apply andb_prop in S. tauto.
      * left. exists MemoryError. split; [now right|].
        intros. unfold integrate_vdp, bind at 1, lift at 1.
        destruct (serves_xs heap steps).
        -- rewrite empty_served by lia.
           unfold bind at 1, lift at 1. cbn [andb] in S. rewrite S.
           now rewrite empty_refused by lia.
        -- now rewrite empty_refused by lia.
    + left. exists ValueError. split; [now left|].
      intros. unfold integrate_vdp, bind at 1, lift at 1.
      now rewrite empty_too_big.
Qed.

(** A run that returns had its arrays allocated. *)
Lemma integrate_vdp_returned show_progress out r out' :
  integrate_vdp heap mem mu dt steps x0 v0 show_progress out = (Ok r, out') ->
  0 <= steps < 2 ^ 60 /\
  serves_xs heap steps = true /\ serves_vs heap steps = true.
Proof.
  intros R. destruct integrate_vdp_outcome as [(e & _ & E)|H]; [|exact H].
  rewrite E in R. discriminate R.
Qed.

End IntegrateVdp.

(** Settles the side conditions of [integrate_vdp_spec]. *)
Ltac allocated := first [assumption | lia | reflexivity].

(** ** The loop of [phase_limit_cycle.py] *)

Section Pendulum.
Import PhaseLimitCycle.

Variable sin : float -> float.
Variable pow : float -> float -> float.

Let law := phiddot sin pow.

Lemma plc_body_step g :
  (phi (body sin pow g), phidot (body sin pow g))
  = Euler.step law dt (phi g, phidot g).
Proof. reflexivity. Qed.

Lemma plc_for_each : forall l g,
  for_each sin pow l g
  = (let p := Euler.iterate law dt (length l) (phi g, phidot g) in
     {| phi := fst p; phidot := snd p;
        phi_list := phi_list g
                    ++ map fst (Euler.trajectory law dt (length l) (phi g, phidot g)) |}).
Proof.
  induction l as [|i l IH]; intros g.
  - destruct g. cbn. now rewrite app_nil_r.
  - cbn [for_each length]. rewrite IH. cbn zeta.
    cbn [Euler.iterate Euler.trajectory map]. rewrite <- plc_body_step.
    cbn [body phi phidot phi_list]. now rewrite <- app_assoc.
Qed.

Lemma plc_loop n :
  loop sin pow n
  = (let p := Euler.iterate law dt (Z.to_nat n) (phi init, phidot init) in
     {| phi := fst p; phidot := snd p;
        phi_list := map fst (Euler.trajectory law dt (Z.to_nat n)
                                              (phi init, phidot init)) |}).
Proof.
  unfold loop. rewrite plc_for_each. unfold Py.range.
  now rewrite length_map, length_seq.
Qed.

End Pendulum.

(** ** Binary64 facts behind the zero-damping law *)

Section Floats.
Local Open Scope float_scope.

Lemma SFcompare_finite_refl s m e :
  SFcompare (S754_finite s m e) (S754_finite s m e) = Some Eq.
Proof.
  simpl. rewrite Z.compare_refl, Pos.compare_cont_refl. now destruct s.
Qed.

(** [is_finite] read off the specification of [x]. *)
Lemma is_finite_SF x :
  is_finite x
  = match Prim2SF x with
    | S754_zero _ | S754_finite _ _ _ => true
    | _ => false
    end.
Proof.
  unfold is_finite, is_nan, is_infinity.
  rewrite !eqb_spec, abs_spec. change (Prim2SF infinity) with (S754_infinity false).
  destruct (Prim2SF x) as [s|s| |s m e]; try reflexivity.
  - now destruct s.
  - unfold SFeqb at 1. rewrite SFcompare_finite_refl. reflexivity.
Qed.

Lemma is_nan_SF x :
  is_nan x = match Prim2SF x with S754_nan => true | _ => false end.
Proof.
  unfold is_nan. rewrite eqb_spec.
  destruct (Prim2SF x) as [s|s| |s m e]; try reflexivity.
  - now destruct s.
  - unfold SFeqb. now rewrite SFcompare_finite_refl.
Qed.

(** [x == x] holds for every float but NaN. *)
Lemma eqb_same x : (x =? x) = negb (is_nan x).
Proof.
  rewrite eqb_spec, is_nan_SF.
  destruct (Prim2SF x) as [s|s| |s m e]; try reflexivity.
  - now destruct s.
  - unfold SFeqb. now rewrite SFcompare_finite_refl.
Qed.

(** A float equal to zero is one of the two zeros. *)
Lemma eqb_zero_SF x :
  (x =? 0) = true -> exists s, Prim2SF x = S754_zero s.
Proof.
  rewrite eqb_spec. change (Prim2SF 0) with (S754_zero false).
  destruct (Prim2SF x) as [s|s| |s m e]; try discriminate.
  - now exists s.
  - now destruct s.
  - now destruct s.
Qed.

(** With [mu] zero the acceleration equals [- x] exactly when the factor
    [1 - x * x] has not overflowed. *)
Lemma accel_zero_mu mu x v :
  (mu =? 0) = true -> is_finite x = true -> is_finite v = true ->
  (PhasePortrait.accel mu x v =? - x) = is_finite (1 - x * x).
Proof.
  intros Hmu Hx Hv. apply eqb_zero_SF in Hmu. destruct Hmu as [s Hmu].
  rewrite is_finite_SF in Hx, Hv. rewrite is_finite_SF.
  unfold PhasePortrait.accel.
  rewrite eqb_spec, opp_spec, sub_spec, !mul_spec, Hmu.
  destruct (Prim2SF (1 - x * x)) as [sw|sw| |sw mw ew];
    destruct (Prim2SF v) as [sv|sv| |sv mv ev]; try discriminate;
    destruct (Prim2SF x) as [sx|sx| |sx mx ex]; try discriminate;
    cbn [SF64mul SFmul SF64sub SFsub SFopp]; try reflexivity;
    try (unfold SFeqb; rewrite SFcompare_finite_refl; reflexivity);
    try (destruct (xorb (xorb s sw) sv), sx; reflexivity).
Qed.

(** When the factor is not finite, a zero [mu] turns it into NaN. *)
Lemma accel_zero_mu_nan mu x v :
  (mu =? 0) = true -> is_finite (1 - x * x) = false ->
  is_nan (PhasePortrait.accel mu x v) = true.
Proof.
  intros Hmu Hw. apply eqb_zero_SF in Hmu. destruct Hmu as [s Hmu].
  rewrite is_finite_SF in Hw. rewrite is_nan_SF.
  unfold PhasePortrait.accel.
  rewrite sub_spec, !mul_spec, Hmu.
  destruct (Prim2SF (1 - x * x)) as [sw|sw| |sw mw ew]; try discriminate;
    cbn [SF64mul SFmul];
    destruct (Prim2SF v) as [sv|sv| |sv mv ev]; cbn [SF64mul SFmul];
    destruct (Prim2SF x) as [sx|sx| |sx mx ex]; reflexivity.
Qed.

(** An overflowed square leaves no finite factor. *)
Lemma square_overflow x :
  is_finite (x * x) = false -> is_finite (1 - x * x) = false.
Proof.
  rewrite !is_finite_SF, sub_spec.
  change (Prim2SF 1) with (S754_finite false 4503599627370496 (-52)).
  destruct (Prim2SF (x * x)) as [s|s| |s m e]; try discriminate; reflexivity.
Qed.

End Floats.

(** ** The transient / limit-cycle split *)

Section Segments.
Import Py.
Local Open Scope Z_scope.

Lemma clip_in_range {A} (a : list A) k :
  0 <= k <= len a -> clip a k = Z.to_nat k.
Proof.
  intros H. unfold clip. destruct (Z.ltb_spec k 0); [lia|].
  now rewrite Z.min_l by lia.
Qed.

Lemma slice_lengths {A} (a : list A) k :
  0 <= k <= len a ->
  len (slice_to a k) = k /\ len (slice_from a k) = len a - k.
Proof.
  intros H. unfold slice_to, slice_from, len in *.
  rewrite clip_in_range by (unfold len; lia).
  rewrite length_firstn, length_skipn. lia.
Qed.

End Segments.

(** * The claims *)

Section Claims.
Import Py.
Local Open Scope Z_scope.

(** Three steps of the default run, as CPython computes them
    ([integrate_vdp(1.2, 0.01, 3, 0.1, 0.0, True)]). *)
Example integrate_vdp_three_steps :
  PhasePortrait.integrate_vdp PhasePortrait.roomy PhasePortrait.stale 1.2 0.01 3 0.1 0 true []
  = (Ok (Np.filled [0.099990000000000009; 0.099969882199760024;
                    0.099939528410379258]%float,
         Np.filled [-0.001; -0.0020117800239987998;
                    -0.003035378938076541]%float),
     [Integrating 33; Integrating 66; Integrating 100; Done]).
Proof. vm_compute. reflexivity. Qed.

(** The ordering matters: forward Euler gives another position. *)
Example forward_euler_differs :
  Euler.step (PhasePortrait.accel 1.2) 0.01 (0.1, 0)%float
  = (0.099990000000000009, -0.001)%float /\
  Euler.forward_step (PhasePortrait.accel 1.2) 0.01 (0.1, 0)%float
  = (0.10000000000000001, -0.001)%float.
Proof. split; vm_compute; reflexivity. Qed.

(** The default run of [main]: 20000 steps split at 12000 give a
    transient of 12000 entries and a cycle of 8000. *)
Example default_run_split :
  exists xs vs out',
    PhasePortrait.integrate_vdp PhasePortrait.roomy PhasePortrait.stale 1.2 0.01 20000 0.1 0 true []
    = (Ok (xs, vs), out') /\
    let s := PhasePortrait.split_transient xs vs 12000 in
    PhasePortrait.transient s = 12000 /\
    len (PhasePortrait.xs_tr s) = 12000 /\ len (PhasePortrait.vs_tr s) = 12000 /\
    len (PhasePortrait.xs_cy s) = 8000 /\ len (PhasePortrait.vs_cy s) = 8000.
Proof.
  eexists _, _, _.
  split; [apply integrate_vdp_spec; [lia|reflexivity..]|]. cbn zeta.
  set (tr := Euler.trajectory _ _ _ _).
  assert (L : length tr = Z.to_nat 20000) by apply trajectory_length.
  assert (Lx : len (Np.filled (map fst tr)) = 20000)
    by (unfold len; rewrite filled_length, length_map, L; lia).
  assert (Lv : len (Np.filled (map snd tr)) = 20000)
    by (unfold len; rewrite filled_length, length_map, L; lia).
  clearbody tr. unfold PhasePortrait.split_transient.
  cbn [PhasePortrait.transient PhasePortrait.xs_tr PhasePortrait.xs_cy
       PhasePortrait.vs_tr PhasePortrait.vs_cy].
  rewrite Lx. change (Z.max 0 (Z.min 12000 (20000 - 1))) with 12000.
  destruct (slice_lengths (Np.filled (map fst tr)) 12000 ltac:(lia)) as [X1 X2].
  destruct (slice_lengths (Np.filled (map snd tr)) 12000 ltac:(lia)) as [V1 V2].
  repeat split; lia.
Qed.

(** C1 (as amended).  For every [mu], [dt], [(x0, v0)] and every
    [steps] with [1 <= steps < 2 ^ 60] whose two arrays the allocator
    serves, [integrate_vdp] follows semi-implicit Euler: entry [i] of
    [xs] and of [vs] is the state after [i + 1] steps of [Euler.step],
    which takes the acceleration from the old state, advances the
    velocity first and the position with the new velocity; for
    [steps = 1], [vs[0]] is the float [v0 + a * dt] and [xs[0]] is the
    float [x0 + vs[0] * dt], so that the comparisons [==] between them
    hold unless the value is NaN; the initial pair is not an entry.
    The loop of [phase_limit_cycle.py] follows the same recurrence,
    but records the post-update position only: [phi_list] is its one
    sequence, the velocity stays in [phidot]. *)
Theorem semi_implicit_euler_order :
  forall heap mem mu dt steps x0 v0 show_progress out,
  1 <= steps < 2 ^ 60 ->
  PhasePortrait.serves_xs heap steps = true ->
  PhasePortrait.serves_vs heap steps = true ->
  (exists xs vs out',
      PhasePortrait.integrate_vdp heap mem mu dt steps x0 v0 show_progress out
      = (Ok (xs, vs), out') /\
      combine (Np.values xs) (Np.values vs)
      = Euler.trajectory (PhasePortrait.accel mu) dt (Z.to_nat steps) (x0, v0) /\
      (forall i, (i < Z.to_nat steps)%nat ->
         nth_error (Np.values xs) i
         = Some (fst (Euler.iterate (PhasePortrait.accel mu) dt (S i) (x0, v0))) /\
         nth_error (Np.values vs) i
         = Some (snd (Euler.iterate (PhasePortrait.accel mu) dt (S i) (x0, v0)))) /\
      (steps = 1 ->
         exists vel pos,
           vel = (v0 + PhasePortrait.accel mu x0 v0 * dt)%float /\
           pos = (x0 + vel * dt)%float /\
           Np.values vs = [vel] /\
           Np.values xs = [pos] /\
           (vel =? v0 + PhasePortrait.accel mu x0 v0 * dt)%float
           = negb (is_nan vel) /\
           (pos =? x0 + vel * dt)%float = negb (is_nan pos))) /\
  (forall sin pow,
      let law := PhaseLimitCycle.phiddot sin pow in
      let g := PhaseLimitCycle.loop sin pow steps in
      let p0 := (PhaseLimitCycle.phi PhaseLimitCycle.init,
                 PhaseLimitCycle.phidot PhaseLimitCycle.init) in
      PhaseLimitCycle.phi_list g
      = map fst (Euler.trajectory law PhaseLimitCycle.dt (Z.to_nat steps) p0) /\
      (PhaseLimitCycle.phi g, PhaseLimitCycle.phidot g)
      = Euler.iterate law PhaseLimitCycle.dt (Z.to_nat steps) p0 /\
      PhaseLimitCycle.series g = [PhaseLimitCycle.phi_list g] /\
      (steps = 1 ->
         exists vel,
           vel = (snd p0 + law (fst p0) (snd p0) * PhaseLimitCycle.dt)%float /\
           PhaseLimitCycle.phidot g = vel /\
           PhaseLimitCycle.phi_list g = [(fst p0 + vel * PhaseLimitCycle.dt)%float])).
Proof.
  intros heap mem mu dt steps x0 v0 show_progress out H Sx Sv. split.
  - eexists _, _, _. split; [apply integrate_vdp_spec; allocated|]. cbn zeta.
    rewrite !filled_values.
    set (tr := Euler.trajectory (PhasePortrait.accel mu) dt (Z.to_nat steps) (x0, v0)).
    assert (C : combine (map fst tr) (map snd tr) = tr).
    { clearbody tr. induction tr as [|[a b] tr IH]; simpl; [reflexivity|now rewrite IH]. }
    split; [exact C|]. split.
    + intros i Hi. rewrite !nth_error_map. unfold tr.
      rewrite trajectory_nth by assumption. split; reflexivity.
    + intros E. subst tr. rewrite E. eexists _, _.
      split; [reflexivity|]. split; [reflexivity|].
      split; [reflexivity|]. split; [reflexivity|].
      split; apply eqb_same.
  - intros sin pow law g p0. unfold g. rewrite plc_loop. cbn zeta.
    cbn [PhaseLimitCycle.phi_list PhaseLimitCycle.phi PhaseLimitCycle.phidot].
    split; [reflexivity|]. split; [now rewrite <- surjective_pairing|].
    split; [reflexivity|].
    intros ->. eexists. split; [reflexivity|]. split; reflexivity.
Qed.

(** C1, witness: one step of the default run. *)
Lemma semi_implicit_euler_order_witness :
  1 <= 1 < 2 ^ 60 /\
  PhasePortrait.serves_xs PhasePortrait.roomy 1 = true /\
  PhasePortrait.serves_vs PhasePortrait.roomy 1 = true /\
  ((exists xs vs out',
      PhasePortrait.integrate_vdp PhasePortrait.roomy PhasePortrait.stale 1.2 0.01 1 0.1 0 true []
      = (Ok (xs, vs), out') /\
      combine (Np.values xs) (Np.values vs)
      = Euler.trajectory (PhasePortrait.accel 1.2) 0.01 (Z.to_nat 1) (0.1, 0)%float /\
      (forall i, (i < Z.to_nat 1)%nat ->
         nth_error (Np.values xs) i
         = Some (fst (Euler.iterate (PhasePortrait.accel 1.2) 0.01 (S i) (0.1, 0)%float)) /\
         nth_error (Np.values vs) i
         = Some (snd (Euler.iterate (PhasePortrait.accel 1.2) 0.01 (S i) (0.1, 0)%float))) /\
      (1 = 1 ->
         exists vel pos,
           vel = (0 + PhasePortrait.accel 1.2 0.1 0 * 0.01)%float /\
           pos = (0.1 + vel * 0.01)%float /\
           Np.values vs = [vel] /\
           Np.values xs = [pos] /\
           (vel =? 0 + PhasePortrait.accel 1.2 0.1 0 * 0.01)%float
           = negb (is_nan vel) /\
           (pos =? 0.1 + vel * 0.01)%float = negb (is_nan pos))) /\
   (forall sin pow,
      let law := PhaseLimitCycle.phiddot sin pow in
      let g := PhaseLimitCycle.loop sin pow 1 in
      let p0 := (PhaseLimitCycle.phi PhaseLimitCycle.init,
                 PhaseLimitCycle.phidot PhaseLimitCycle.init) in
      PhaseLimitCycle.phi_list g
      = map fst (Euler.trajectory law PhaseLimitCycle.dt (Z.to_nat 1) p0) /\
      (PhaseLimitCycle.phi g, PhaseLimitCycle.phidot g)
      = Euler.iterate law PhaseLimitCycle.dt (Z.to_nat 1) p0 /\
      PhaseLimitCycle.series g = [PhaseLimitCycle.phi_list g] /\
      (1 = 1 ->
         exists vel,
           vel = (snd p0 + law (fst p0) (snd p0) * PhaseLimitCycle.dt)%float /\
           PhaseLimitCycle.phidot g = vel /\
           PhaseLimitCycle.phi_list g = [(fst p0 + vel * PhaseLimitCycle.dt)%float]))).
Proof.
  split; [lia|]. split; [reflexivity|]. split; [reflexivity|].
  apply (semi_implicit_euler_order PhasePortrait.roomy PhasePortrait.stale 1.2 0.01 1 0.1 0 true []);
    [lia|reflexivity..].
Defined.

(** C1, counterexamples.  Whatever the C library computes, the run of
    [phase_limit_cycle.py] fills no second sequence: there is no
    [velocities] for [velocities[0]] to read.  A count of [2 ^ 63]
    steps is refused by [np.empty]: nothing is recorded.  And from a
    NaN velocity the recorded [vs[0]] is the NaN [v0 + a * dt], which
    does not compare equal to it. *)
Lemma semi_implicit_euler_order_limits :
  ~ (exists sin pow velocities,
        nth_error (PhaseLimitCycle.series
                     (PhaseLimitCycle.loop sin pow PhaseLimitCycle.steps)) 1
        = Some velocities) /\
  (1 <= 2 ^ 63 /\
   PhasePortrait.integrate_vdp PhasePortrait.roomy PhasePortrait.stale
     1.2 0.01 (2 ^ 63) 0.1 0 true []
   = (Raise ValueError, [])) /\
  (exists pos vel,
      PhasePortrait.integrate_vdp PhasePortrait.roomy PhasePortrait.stale
        1.2 0.01 1 0.1 nan true []
      = (Ok (Np.filled [pos], Np.filled [vel]), [Integrating 100; Done]) /\
      (vel =? nan + PhasePortrait.accel 1.2 0.1 nan * 0.01)%float = false).
Proof.
  split; [|split].
  - intros (sin & pow & velocities & H). unfold PhaseLimitCycle.series in H.
    cbn [nth_error] in H. discriminate H.
  - split; [discriminate|]. vm_compute. reflexivity.
  - eexists _, _. split; vm_compute; reflexivity.
Qed.

(** C2.  The Van der Pol law is [mu * (1 - x * x) * v - x] and the
    pendulum law is
    [- epsilon * (phi ** 2 - 1) * phidot - omega0 ** 2 * sin phi], for
    every state (and every [mu]; [epsilon] and [omega0] are the script's
    constants).  Both are functions of the state and the parameters
    alone: an iteration of either loop advances [(position, velocity)]
    by [Euler.step] of that law whatever the index, the arrays, the
    output so far and the progress flag are, and evaluating the law
    prints nothing. *)
Theorem acceleration_laws :
  (forall mu x v,
      PhasePortrait.accel mu x v = (mu * (1 - x * x) * v - x)%float) /\
  (forall mu dt steps checkpoint show_progress i s out s' out',
      PhasePortrait.body mu dt steps checkpoint show_progress i s out
      = (Ok s', out') ->
      (PhasePortrait.x s', PhasePortrait.v s')
      = Euler.step (PhasePortrait.accel mu) dt
                   (PhasePortrait.x s, PhasePortrait.v s) /\
      (show_progress = false -> out' = out)) /\
  (forall sin pow phi phidot,
      PhaseLimitCycle.phiddot sin pow phi phidot
      = (- PhaseLimitCycle.epsilon * (pow phi 2 - 1) * phidot
         - pow PhaseLimitCycle.omega0 2 * sin phi)%float) /\
  (forall sin pow g,
      (PhaseLimitCycle.phi (PhaseLimitCycle.body sin pow g),
       PhaseLimitCycle.phidot (PhaseLimitCycle.body sin pow g))
      = Euler.step (PhaseLimitCycle.phiddot sin pow) PhaseLimitCycle.dt
                   (PhaseLimitCycle.phi g, PhaseLimitCycle.phidot g)).
Proof.
  split; [reflexivity|]. split; [|split; [reflexivity|intros; apply plc_body_step]].
  intros mu dt steps checkpoint show_progress i s out s' out'.
  unfold PhasePortrait.body, bind, lift, ret.
  destruct (Np.setitem (PhasePortrait.xs s) i _) as [xs'|e]; [|discriminate].
  destruct (Np.setitem (PhasePortrait.vs s) i _) as [vs'|e]; [|discriminate].
  destruct (PhasePortrait.report show_progress checkpoint steps i out)
    as [[[]|e] o] eqn:R; [|discriminate].
  intros [= <- <-]. split; [reflexivity|].
  intros ->. cbn in R. now injection R.
Qed.

(** C3 (as amended).  For every [steps] with [0 <= steps < 2 ^ 60]
    whose two arrays the allocator serves, [integrate_vdp] returns two
    index-aligned arrays with [len(xs) = len(vs) = steps], both empty
    for [steps = 0].  The loop of [phase_limit_cycle.py] fills one
    sequence of that length, the positions [phi_list]; it records no
    velocities. *)
Theorem trajectory_lengths :
  forall heap mem mu dt steps x0 v0 show_progress out,
  0 <= steps < 2 ^ 60 ->
  PhasePortrait.serves_xs heap steps = true ->
  PhasePortrait.serves_vs heap steps = true ->
  (exists xs vs out',
      PhasePortrait.integrate_vdp heap mem mu dt steps x0 v0 show_progress out
      = (Ok (xs, vs), out') /\
      len xs = steps /\ len vs = steps /\
      (steps = 0 -> xs = [] /\ vs = []) /\
      combine (Np.values xs) (Np.values vs)
      = Euler.trajectory (PhasePortrait.accel mu) dt (Z.to_nat steps) (x0, v0) /\
      PhasePortrait.series (xs, vs) = [Np.values xs; Np.values vs]) /\
  (forall sin pow,
      let g := PhaseLimitCycle.loop sin pow steps in
      len (PhaseLimitCycle.phi_list g) = steps /\
      (steps = 0 -> PhaseLimitCycle.phi_list g = []) /\
      PhaseLimitCycle.series g = [PhaseLimitCycle.phi_list g] /\
      len (PhaseLimitCycle.phi_arr sin pow) = PhaseLimitCycle.steps).
Proof.
  intros heap mem mu dt steps x0 v0 show_progress out H Sx Sv. split.
  - eexists _, _, _. split; [apply integrate_vdp_spec; allocated|]. cbn zeta.
    set (tr := Euler.trajectory (PhasePortrait.accel mu) dt (Z.to_nat steps) (x0, v0)).
    assert (L : length tr = Z.to_nat steps) by apply trajectory_length.
    unfold len. rewrite !filled_length, !length_map, L, !filled_values.
    repeat split; try lia.
    + subst steps. reflexivity.
    + subst steps. reflexivity.
    + clearbody tr. clear L.
      induction tr as [|[a b] tr IH]; simpl; [reflexivity|now rewrite IH].
    + unfold PhasePortrait.series. cbn [fst snd]. now rewrite !filled_values.
  - intros sin pow g. unfold g, PhaseLimitCycle.phi_arr.
    rewrite !plc_loop. cbn zeta.
    cbn [PhaseLimitCycle.phi_list]. unfold len.
    rewrite !length_map, !trajectory_length.
    repeat split; try lia.
    intros ->. reflexivity.
Qed.

(** C3, witness: three steps. *)
Lemma trajectory_lengths_witness :
  0 <= 3 < 2 ^ 60 /\
  PhasePortrait.serves_xs PhasePortrait.roomy 3 = true /\
  PhasePortrait.serves_vs PhasePortrait.roomy 3 = true /\
  ((exists xs vs out',
      PhasePortrait.integrate_vdp PhasePortrait.roomy PhasePortrait.stale 1.2 0.01 3 0.1 0 false []
      = (Ok (xs, vs), out') /\
      len xs = 3 /\ len vs = 3 /\
      (3 = 0 -> xs = [] /\ vs = []) /\
      combine (Np.values xs) (Np.values vs)
      = Euler.trajectory (PhasePortrait.accel 1.2) 0.01 (Z.to_nat 3) (0.1, 0)%float /\
      PhasePortrait.series (xs, vs) = [Np.values xs; Np.values vs]) /\
   (forall sin pow,
      let g := PhaseLimitCycle.loop sin pow 3 in
      len (PhaseLimitCycle.phi_list g) = 3 /\
      (3 = 0 -> PhaseLimitCycle.phi_list g = []) /\
      PhaseLimitCycle.series g = [PhaseLimitCycle.phi_list g] /\
      len (PhaseLimitCycle.phi_arr sin pow) = PhaseLimitCycle.steps)).
Proof.
  split; [lia|]. split; [reflexivity|]. split; [reflexivity|].
  apply (trajectory_lengths PhasePortrait.roomy PhasePortrait.stale 1.2 0.01 3 0.1 0 false []);
    [lia|reflexivity..].
Defined.

(** C3, counterexamples.  Whatever the C library computes, the run of
    [phase_limit_cycle.py] does not end with two recorded sequences.
    And [integrate_vdp] returns no arrays for the count [2 ^ 60], which
    [np.empty] refuses, nor when the allocator has no memory left. *)
Lemma trajectory_lengths_limits :
  ~ (exists sin pow,
        length (PhaseLimitCycle.series
                  (PhaseLimitCycle.loop sin pow PhaseLimitCycle.steps))
        = 2%nat) /\
  (0 <= 2 ^ 60 /\
   PhasePortrait.integrate_vdp PhasePortrait.roomy PhasePortrait.stale
     1.2 0.01 (2 ^ 60) 0.1 0 true []
   = (Raise ValueError, [])) /\
  PhasePortrait.integrate_vdp PhasePortrait.exhausted PhasePortrait.stale
    1.2 0.01 3 0.1 0 true []
  = (Raise MemoryError, []).
Proof.
  split; [|split].
  - intros (sin & pow & H). unfold PhaseLimitCycle.series in H.
    cbn [length] in H. discriminate H.
  - split; [discriminate|]. vm_compute. reflexivity.
  - vm_compute. reflexivity.
Qed.

(** C4.  For arrays of length [N >= 1] and every integer [k], the split
    of [main] uses [max(0, min(k, N - 1))], which lies in [0, N - 1];
    the transient is the first that many entries, the cycle is the
    rest, and their lengths add up to [N]. *)
Theorem segmentation_clamps :
  forall xs vs k,
  1 <= len xs -> len vs = len xs ->
  let s := PhasePortrait.split_transient xs vs k in
  let t := PhasePortrait.transient s in
  t = Z.max 0 (Z.min k (len xs - 1)) /\
  0 <= t <= len xs - 1 /\
  PhasePortrait.xs_tr s = firstn (Z.to_nat t) xs /\
  PhasePortrait.xs_cy s = skipn (Z.to_nat t) xs /\
  PhasePortrait.vs_tr s = firstn (Z.to_nat t) vs /\
  PhasePortrait.vs_cy s = skipn (Z.to_nat t) vs /\
  len (PhasePortrait.xs_tr s) + len (PhasePortrait.xs_cy s) = len xs /\
  len (PhasePortrait.vs_tr s) + len (PhasePortrait.vs_cy s) = len xs /\
  1 <= len (PhasePortrait.xs_cy s).
Proof.
  intros xs vs k Hx Hv s t. subst t s. unfold PhasePortrait.split_transient.
  cbn [PhasePortrait.transient PhasePortrait.xs_tr PhasePortrait.xs_cy
       PhasePortrait.vs_tr PhasePortrait.vs_cy].
  set (e := Z.max 0 (Z.min k (len xs - 1))).
  assert (E : 0 <= e <= len xs - 1) by lia.
  unfold slice_to, slice_from.
  rewrite !clip_in_range by lia.
  destruct (slice_lengths xs e ltac:(lia)) as [X1 X2].
  destruct (slice_lengths vs e ltac:(lia)) as [V1 V2].
  unfold slice_to, slice_from in X1, X2, V1, V2.
  rewrite !clip_in_range in X1, X2, V1, V2 by lia.
  repeat split; try reflexivity; lia.
Qed.

(** C4, witness: a negative split index on three entries. *)
Lemma segmentation_clamps_witness :
  let xs := Np.filled [1; 2; 3]%float in
  let vs := Np.filled [4; 5; 6]%float in
  1 <= len xs /\ len vs = len xs /\
  let s := PhasePortrait.split_transient xs vs (-7) in
  let t := PhasePortrait.transient s in
  t = Z.max 0 (Z.min (-7) (len xs - 1)) /\
  0 <= t <= len xs - 1 /\
  PhasePortrait.xs_tr s = firstn (Z.to_nat t) xs /\
  PhasePortrait.xs_cy s = skipn (Z.to_nat t) xs /\
  PhasePortrait.vs_tr s = firstn (Z.to_nat t) vs /\
  PhasePortrait.vs_cy s = skipn (Z.to_nat t) vs /\
  len (PhasePortrait.xs_tr s) + len (PhasePortrait.xs_cy s) = len xs /\
  len (PhasePortrait.vs_tr s) + len (PhasePortrait.vs_cy s) = len xs /\
  1 <= len (PhasePortrait.xs_cy s).
Proof.
  intros xs vs. split; [vm_compute; discriminate|]. split; [reflexivity|].
  apply (segmentation_clamps xs vs (-7)); [vm_compute; discriminate|reflexivity].
Defined.

(** C5.  With [steps < 0], [integrate_vdp] raises [ValueError] (from
    the first [np.empty]) before the loop: it returns no arrays and
    has printed nothing. *)
Theorem negative_steps_rejected :
  forall heap mem mu dt steps x0 v0 show_progress out,
  steps < 0 ->
  PhasePortrait.integrate_vdp heap mem mu dt steps x0 v0 show_progress out
  = (Raise ValueError, out).
Proof. intros. now apply integrate_vdp_neg. Qed.

(** C5, witness: [steps = -1]. *)
Lemma negative_steps_rejected_witness :
  -1 < 0 /\
  PhasePortrait.integrate_vdp PhasePortrait.roomy PhasePortrait.stale 1.2 0.01 (-1) 0.1 0 true []
  = (Raise ValueError, []).
Proof.
  split; [lia|].
  apply (negative_steps_rejected PhasePortrait.roomy PhasePortrait.stale 1.2 0.01 (-1) 0.1 0 true []).
  lia.
Defined.

(** C6.  Two runs of [integrate_vdp] on the same arguments give the
    same result and the same output, element for element, whatever the
    uninitialised memory under the two pairs of arrays held (when no
    arrays are allocated, both raise the same exception).  And two
    runs that both return, under whatever allocators, return the same
    arrays and have printed the same. *)
Theorem integrate_vdp_deterministic :
  forall heap mem1 mem2 mu dt steps x0 v0 show_progress out,
  PhasePortrait.integrate_vdp heap mem1 mu dt steps x0 v0 show_progress out
  = PhasePortrait.integrate_vdp heap mem2 mu dt steps x0 v0 show_progress out /\
  forall heap' r1 r2 out1 out2,
    PhasePortrait.integrate_vdp heap mem1 mu dt steps x0 v0 show_progress out
    = (Ok r1, out1) ->
    PhasePortrait.integrate_vdp heap' mem2 mu dt steps x0 v0 show_progress out
    = (Ok r2, out2) ->
    r1 = r2 /\ out1 = out2.
Proof.
  intros. split.
  - destruct (integrate_vdp_outcome heap mu dt steps x0 v0)
      as [(e & _ & E)|(H & Sx & Sv)].
    + now rewrite !E.
    + now rewrite !integrate_vdp_spec.
  - intros heap' r1 r2 out1 out2 R1 R2.
    destruct (integrate_vdp_returned _ _ _ _ _ _ _ _ _ _ _ R1) as (H & Sx & Sv).
    destruct (integrate_vdp_returned _ _ _ _ _ _ _ _ _ _ _ R2) as (_ & Sx' & Sv').
    rewrite integrate_vdp_spec in R1, R2 by assumption.
    rewrite R1 in R2. now injection R2 as <- <-.
Qed.

(** C7.  The arrays [integrate_vdp] returns (or the exception it
    raises) are the same with progress reporting on and off; with it
    off nothing is printed.  And a run with reporting on and a run
    with reporting off that both return, under whatever allocators and
    memory contents, return the same arrays. *)
Theorem progress_noninterference :
  forall heap mem mu dt steps x0 v0 out,
  fst (PhasePortrait.integrate_vdp heap mem mu dt steps x0 v0 true out)
  = fst (PhasePortrait.integrate_vdp heap mem mu dt steps x0 v0 false out) /\
  snd (PhasePortrait.integrate_vdp heap mem mu dt steps x0 v0 false out) = out /\
  (exists printed,
      snd (PhasePortrait.integrate_vdp heap mem mu dt steps x0 v0 true out)
      = out ++ printed) /\
  forall heap' mem' r1 r2 out1 out2,
    PhasePortrait.integrate_vdp heap mem mu dt steps x0 v0 true out
    = (Ok r1, out1) ->
    PhasePortrait.integrate_vdp heap' mem' mu dt steps x0 v0 false out
    = (Ok r2, out2) ->
    r1 = r2.
Proof.
  intros. split; [|split; [|split]].
  - destruct (integrate_vdp_outcome heap mu dt steps x0 v0)
      as [(e & _ & E)|(H & Sx & Sv)].
    + now rewrite !E.
    + now rewrite !integrate_vdp_spec by assumption.
  - destruct (integrate_vdp_outcome heap mu dt steps x0 v0)
      as [(e & _ & E)|(H & Sx & Sv)].
    + now rewrite E.
    + rewrite integrate_vdp_spec by assumption. cbn [fst snd].
      rewrite app_nil_r.
      replace (flat_map _ (range steps)) with (@nil output);
        [now rewrite app_nil_r|].
      induction (range steps) as [|i l IH]; [reflexivity|exact IH].
  - destruct (integrate_vdp_outcome heap mu dt steps x0 v0)
      as [(e & _ & E)|(H & Sx & Sv)].
    + rewrite E. exists []. cbn [snd]. now rewrite app_nil_r.
    + rewrite integrate_vdp_spec by assumption. eexists. reflexivity.
  - intros heap' mem' r1 r2 out1 out2 R1 R2.
    destruct (integrate_vdp_returned _ _ _ _ _ _ _ _ _ _ _ R1) as (H & Sx & Sv).
    destruct (integrate_vdp_returned _ _ _ _ _ _ _ _ _ _ _ R2) as (_ & Sx' & Sv').
    rewrite integrate_vdp_spec in R1, R2 by assumption.
    injection R1 as <- _. injection R2 as <- _. reflexivity.
Qed.

(** C9.  No division of [integrate_vdp] is by zero: the checkpoint
    interval [max(1, steps // 20)] is positive, so [i % checkpoint] is
    defined, and [100 * (i + 1) / steps] is evaluated for the [i] of
    [range(steps)] only, where [steps >= 1]; no run raises
    [ZeroDivisionError]. *)
Theorem progress_never_divides_by_zero :
  (forall steps,
      floordiv steps 20 = Ok (steps / 20) /\ 1 <= Z.max 1 (steps / 20)) /\
  (forall steps i,
      In i (range steps) ->
      1 <= steps /\
      exists r q,
        mod_ i (Z.max 1 (steps / 20)) = Ok r /\
        truediv (100 * (i + 1)) steps = Ok q) /\
  (forall heap mem mu dt steps x0 v0 show_progress out,
      fst (PhasePortrait.integrate_vdp heap mem mu dt steps x0 v0 show_progress out)
      <> Raise ZeroDivisionError).
Proof.
  split; [|split].
  - intros steps. split; [reflexivity|lia].
  - intros steps i H. apply range_bounds in H. split; [lia|].
    destruct (pct_ok steps i H) as (q & _ & Q & _).
    exists (i mod Z.max 1 (steps / 20)), q. split; [|exact Q].
    apply mod_ok. lia.
  - intros.
    destruct (integrate_vdp_outcome heap mu dt steps x0 v0)
      as [(e & [->| ->] & E)|(H & Sx & Sv)].
    + now rewrite E.
    + now rewrite E.
    + now rewrite integrate_vdp_spec.
Qed.



(** After one iteration of a run of three steps over stale memory,
    element 0 of both arrays is assigned and elements 1 and 2 still
    hold what the allocator left. *)
Example one_iteration_of_three :
  fst (for_each (range 1) (PhasePortrait.body 1.2 0.01 3 1 false)
         {| PhasePortrait.x := 0.1; PhasePortrait.v := 0;
            PhasePortrait.xs :=
              [ {| Np.value := 7; Np.nstores := 0 |};
                {| Np.value := infinity; Np.nstores := 0 |};
                {| Np.value := 7; Np.nstores := 0 |} ];
            PhasePortrait.vs :=
              [ {| Np.value := nan; Np.nstores := 0 |};
                {| Np.value := nan; Np.nstores := 0 |};
                {| Np.value := nan; Np.nstores := 0 |} ] |} [])
  = Ok {| PhasePortrait.x := 0.099990000000000009;
          PhasePortrait.v := -0.001;
          PhasePortrait.xs :=
            [ {| Np.value := 0.099990000000000009; Np.nstores := 1 |};
              {| Np.value := infinity; Np.nstores := 0 |};
              {| Np.value := 7; Np.nstores := 0 |} ];
          PhasePortrait.vs :=
            [ {| Np.value := -0.001; Np.nstores := 1 |};
              {| Np.value := nan; Np.nstores := 0 |};
              {| Np.value := nan; Np.nstores := 0 |} ] |}.
Proof. vm_compute. reflexivity. Qed.


(** C8 (as amended).  With [mu] zero and a finite state, the Van der
    Pol acceleration equals [- x] if and only if the factor [1 - x * x]
    is finite.  When the factor is not finite the acceleration is NaN;
    that is the case whenever [x * x] overflows. *)
Theorem zero_damping_harmonic :
  forall mu x v,
  (mu =? 0)%float = true ->
  is_finite x = true -> is_finite v = true ->
  ((PhasePortrait.accel mu x v =? - x)%float = true
   <-> is_finite (1 - x * x)%float = true) /\
  (is_finite (1 - x * x)%float = false ->
   is_nan (PhasePortrait.accel mu x v) = true) /\
  (is_finite (x * x)%float = false ->
   is_finite (1 - x * x)%float = false /\
   is_nan (PhasePortrait.accel mu x v) = true).
Proof.
  intros mu x v Hmu Hx Hv. split; [|split].
  - now rewrite (accel_zero_mu mu x v Hmu Hx Hv).
  - now apply accel_zero_mu_nan.
  - intros O. apply square_overflow in O. split; [exact O|].
    now apply accel_zero_mu_nan.
Qed.

(** C8, witness: the state [(0.1, 2)]. *)
Lemma zero_damping_harmonic_witness :
  (0 =? 0)%float = true /\
  is_finite 0.1 = true /\ is_finite 2 = true /\
  ((PhasePortrait.accel 0 0.1 2 =? - 0.1)%float = true
   <-> is_finite (1 - 0.1 * 0.1)%float = true) /\
  (is_finite (1 - 0.1 * 0.1)%float = false ->
   is_nan (PhasePortrait.accel 0 0.1 2) = true) /\
  (is_finite (0.1 * 0.1)%float = false ->
   is_finite (1 - 0.1 * 0.1)%float = false /\
   is_nan (PhasePortrait.accel 0 0.1 2) = true).
Proof.
  split; [reflexivity|]. split; [reflexivity|]. split; [reflexivity|].
  apply (zero_damping_harmonic 0 0.1 2); reflexivity.
Defined.

(** C8, counterexample.  At the finite state [(1e200, 0)] with [mu = 0]
    the square overflows and the acceleration is NaN, not [-1e200]. *)
Lemma zero_damping_overflow :
  is_finite 1e200 = true /\ is_finite 0 = true /\
  (PhasePortrait.accel 0 1e200 0 =? - 1e200)%float = false /\
  is_nan (PhasePortrait.accel 0 1e200 0) = true.
Proof. repeat split; reflexivity. Qed.

(** Where the square starts to overflow: [1.3407807929942596e154] is
    the largest float whose square is finite. *)
Example square_overflow_threshold :
  is_finite (1.3407807929942596e154 * 1.3407807929942596e154)%float = true /\
  (PhasePortrait.accel 0 1.3407807929942596e154 1
   =? - 1.3407807929942596e154)%float = true /\
  is_finite (next_up 1.3407807929942596e154
             * next_up 1.3407807929942596e154)%float = false /\
  is_nan (PhasePortrait.accel 0 (next_up 1.3407807929942596e154) 1) = true.
Proof. repeat split; reflexivity. Qed.

End Claims.

(** * Further properties *)

(** ** Reading array elements *)

Section Reading.
Import Py.
Local Open Scope Z_scope.

Lemma getitem_nonneg a i :
  0 <= i < len a ->
  exists c, nth_error a (Z.to_nat i) = Some c /\ Np.getitem a i = Ok (Np.value c).
Proof.
  intros H. unfold len in H. unfold Np.getitem.
  destruct (Z.ltb_spec i (- Z.of_nat (length a))); [lia|].
  destruct (Z.leb_spec (Z.of_nat (length a)) i); [lia|].
  destruct (Z.ltb_spec i 0); [lia|]. cbn [orb].
  destruct (nth_error a (Z.to_nat i)) as [c|] eqn:E.
  - now exists c.
  - apply nth_error_None in E. lia.
Qed.

Lemma getitem_last a :
  1 <= len a ->
  exists c, nth_error a (Z.to_nat (len a - 1)) = Some c /\
            Np.getitem a (-1) = Ok (Np.value c).
Proof.
  intros H. unfold len in *. unfold Np.getitem.
  destruct (Z.ltb_spec (-1) (- Z.of_nat (length a))); [lia|].
  destruct (Z.leb_spec (Z.of_nat (length a)) (-1)); [lia|]. cbn [orb Z.ltb Z.compare].
  replace (-1 + Z.of_nat (length a)) with (Z.of_nat (length a) - 1) by lia.
  destruct (nth_error a (Z.to_nat (Z.of_nat (length a) - 1))) as [c|] eqn:E.
  - now exists c.
  - apply nth_error_None in E. lia.
Qed.

Lemma getitem_empty i : Np.getitem [] i = Raise IndexError.
Proof.
  unfold Np.getitem. cbn [length Z.of_nat Z.opp].
  destruct (Z.ltb_spec i 0), (Z.leb_spec 0 i); try reflexivity; lia.
Qed.

(** Entry [i] of two arrays, as a point. *)
Lemma nth_error_points xs vs i c d :
  nth_error xs i = Some c -> nth_error vs i = Some d ->
  nth_error (combine (Np.values xs) (Np.values vs)) i
  = Some (Np.value c, Np.value d).
Proof.
  revert vs i. induction xs as [|c' xs IH]; intros vs i Hx Hv.
  - now destruct i.
  - destruct vs as [|d' vs]; [now destruct i|].
    destruct i as [|i]; cbn in *.
    + now injection Hx as ->; injection Hv as ->.
    + now apply IH.
Qed.

Lemma clip_nonneg_le {A} (a : list A) k :
  0 <= k -> clip a k = Z.to_nat (Z.min k (len a)).
Proof. intros H. unfold clip. now destruct (Z.ltb_spec k 0); [lia|]. Qed.

End Reading.

(** ** The annotation points of [main] *)

Section Annotations.
Import Py.
Local Open Scope Z_scope.

Variables (xs vs : Np.ndarray) (k : Z).
Hypothesis nonempty : 1 <= len xs.
Hypothesis same_length : len vs = len xs.

Let s := PhasePortrait.split_transient xs vs k.
Let t := Z.max 0 (Z.min k (len xs - 1)).

Lemma split_fields :
  PhasePortrait.transient s = t /\
  PhasePortrait.xs_tr s = firstn (Z.to_nat t) xs /\
  PhasePortrait.vs_tr s = firstn (Z.to_nat t) vs /\
  PhasePortrait.xs_cy s = skipn (Z.to_nat t) xs /\
  PhasePortrait.vs_cy s = skipn (Z.to_nat t) vs /\
  len (PhasePortrait.xs_tr s) = t /\
  len (PhasePortrait.xs_cy s) = len xs - t /\
  len (PhasePortrait.vs_cy s) = len xs - t.
Proof.
  unfold s, PhasePortrait.split_transient. fold t.
  cbn [PhasePortrait.transient PhasePortrait.xs_tr PhasePortrait.xs_cy
       PhasePortrait.vs_tr PhasePortrait.vs_cy].
  assert (T : 0 <= t <= len xs - 1) by (unfold t; lia).
  unfold slice_to, slice_from. rewrite !clip_in_range by lia.
  unfold len in *. rewrite length_firstn, !length_skipn.
  repeat split; lia.
Qed.

(** A position of the cycle, read in both cycle arrays. *)
Lemma cycle_point i :
  0 <= i < len (PhasePortrait.xs_cy s) ->
  exists p,
    nth_error (combine (Np.values (PhasePortrait.xs_cy s))
                       (Np.values (PhasePortrait.vs_cy s))) (Z.to_nat i) = Some p /\
    Np.getitem (PhasePortrait.xs_cy s) i = Ok (fst p) /\
    Np.getitem (PhasePortrait.vs_cy s) i = Ok (snd p).
Proof.
  intros H. destruct split_fields as (_ & _ & _ & _ & _ & _ & Lx & Lv).
  destruct (getitem_nonneg (PhasePortrait.xs_cy s) i H) as (c & Nc & Gc).
  destruct (getitem_nonneg (PhasePortrait.vs_cy s) i ltac:(lia)) as (d & Nd & Gd).
  exists (Np.value c, Np.value d). split; [|split; assumption].
  now apply nth_error_points.
Qed.

(** The last recorded point is the last point of the cycle. *)
Lemma last_point :
  exists p,
    nth_error (combine (Np.values (PhasePortrait.xs_cy s))
                       (Np.values (PhasePortrait.vs_cy s)))
              (Z.to_nat (len (PhasePortrait.xs_cy s) - 1)) = Some p /\
    Np.getitem xs (-1) = Ok (fst p) /\
    Np.getitem vs (-1) = Ok (snd p).
Proof.
  destruct split_fields as (_ & _ & _ & Cx & Cv & _ & Lx & Lv).
  assert (T : 0 <= t <= len xs - 1) by (unfold t; lia).
  destruct (getitem_last xs nonempty) as (c & Nc & Gc).
  destruct (getitem_last vs ltac:(lia)) as (d & Nd & Gd).
  exists (Np.value c, Np.value d). split; [|split; assumption].
  rewrite Lx. apply nth_error_points.
  - rewrite Cx, nth_error_skipn, <- Nc. f_equal. lia.
  - rewrite Cv, nth_error_skipn, <- Nd. f_equal. lia.
Qed.

Lemma cycle_points_spec :
  let cycle := combine (Np.values (PhasePortrait.xs_cy s))
                       (Np.values (PhasePortrait.vs_cy s)) in
  let n := len (PhasePortrait.xs_cy s) in
  exists p1 p2,
    Main.cycle_points xs vs s = Ok (p1, p2) /\
    nth_error cycle (Z.to_nat (if 10 <? n then n / 5 else n - 1)) = Some p1 /\
    nth_error cycle (Z.to_nat (if 10 <? n then n / 2 else n - 1)) = Some p2.
Proof.
  cbn zeta. unfold Main.cycle_points.
  destruct (Z.ltb_spec 10 (len (PhasePortrait.xs_cy s))) as [L|L].
  - assert (H1 : 0 <= len (PhasePortrait.xs_cy s) / 5 < len (PhasePortrait.xs_cy s)).
    { split; [apply Z.div_pos; lia|apply Z.div_lt; lia]. }
    assert (H2 : 0 <= len (PhasePortrait.xs_cy s) / 2 < len (PhasePortrait.xs_cy s)).
    { split; [apply Z.div_pos; lia|apply Z.div_lt; lia]. }
    destruct (cycle_point _ H1) as ([a b] & N1 & X1 & V1).
    destruct (cycle_point _ H2) as ([c d] & N2 & X2 & V2).
    exists (a, b), (c, d). unfold floordiv, Main.and_then. cbn [Z.eqb].
    rewrite X1, V1, X2, V2. now repeat split.
  - destruct last_point as ([a b] & N & X & V).
    exists (a, b), (a, b). unfold Main.and_then. rewrite X, V.
    now repeat split.
Qed.

Lemma arrow_index_spec :
  Main.arrow_index s = (if 0 <? t then Z.min 4000 (t - 1) else 0) /\
  0 <= Main.arrow_index s < len xs /\
  (0 < t -> Main.arrow_index s < t).
Proof.
  destruct split_fields as (_ & _ & _ & _ & _ & L & _).
  unfold Main.arrow_index. rewrite L.
  assert (T : 0 <= t <= len xs - 1) by (unfold t; lia).
  destruct (Z.ltb_spec 0 t); repeat split; lia.
Qed.

Lemma arrow_point_spec :
  exists p,
    Np.getitem xs (Main.arrow_index s) = Ok (fst p) /\
    Np.getitem vs (Main.arrow_index s) = Ok (snd p) /\
    nth_error (combine (Np.values xs) (Np.values vs))
              (Z.to_nat (Main.arrow_index s)) = Some p /\
    (0 < t ->
     nth_error (combine (Np.values (PhasePortrait.xs_tr s))
                        (Np.values (PhasePortrait.vs_tr s)))
               (Z.to_nat (Main.arrow_index s)) = Some p) /\
    (t = 0 ->
     nth_error (combine (Np.values (PhasePortrait.xs_cy s))
                        (Np.values (PhasePortrait.vs_cy s))) 0 = Some p).
Proof.
  destruct arrow_index_spec as (_ & R & B).
  destruct split_fields as (_ & Tx & Tv & Cx & Cv & _).
  assert (R' : 0 <= Main.arrow_index s < len vs) by lia.
  destruct (getitem_nonneg xs _ R) as (c & Nc & Gc).
  destruct (getitem_nonneg vs _ R') as (d & Nd & Gd).
  exists (Np.value c, Np.value d). repeat split; try assumption.
  - now apply nth_error_points.
  - intros P. specialize (B P). apply nth_error_points.
    + rewrite Tx, nth_error_firstn.
      destruct (Nat.ltb_spec (Z.to_nat (Main.arrow_index s)) (Z.to_nat t)); [assumption|lia].
    + rewrite Tv, nth_error_firstn.
      destruct (Nat.ltb_spec (Z.to_nat (Main.arrow_index s)) (Z.to_nat t)); [assumption|lia].
  - intros Z0. destruct arrow_index_spec as (E & _). rewrite Z0 in E.
    cbn in E. rewrite E in Nc, Nd. apply nth_error_points.
    + now rewrite Cx, Z0.
    + now rewrite Cv, Z0.
Qed.

(** The point selection raises nothing on a non-empty trajectory. *)
Lemma cycle_annotations_free :
  exists a, Main.annotation_points xs vs s = Ok a.
Proof.
  destruct cycle_points_spec as (p1 & p2 & C & _).
  destruct arrow_point_spec as ([e f] & Gx & Gv & _).
  unfold Main.annotation_points. rewrite C. cbn [Main.and_then].
  rewrite Gx, Gv. eexists. reflexivity.
Qed.

End Annotations.

Section MainPath.
Import Py.
Local Open Scope Z_scope.

(** X1.  For two arrays of the same length [N >= 1] and every split
    index, the choice of the two cycle annotation points raises
    nothing, and both are points of the cycle segment: entries
    [len // 5] and [len // 2] of it when it has more than ten points,
    its last point otherwise. *)
Theorem cycle_annotations_on_cycle :
  forall xs vs k,
  1 <= len xs -> len vs = len xs ->
  let s := PhasePortrait.split_transient xs vs k in
  let cycle := combine (Np.values (PhasePortrait.xs_cy s))
                       (Np.values (PhasePortrait.vs_cy s)) in
  let n := len (PhasePortrait.xs_cy s) in
  exists a,
    Main.annotation_points xs vs s = Ok a /\
    nth_error cycle (Z.to_nat (if 10 <? n then n / 5 else n - 1))
    = Some (Main.pt1 a) /\
    nth_error cycle (Z.to_nat (if 10 <? n then n / 2 else n - 1))
    = Some (Main.pt2 a) /\
    In (Main.pt1 a) cycle /\ In (Main.pt2 a) cycle.
Proof.
  intros xs vs k H L s cycle n. subst n cycle s.
  destruct (cycle_points_spec xs vs k H L) as (p1 & p2 & C & N1 & N2).
  destruct (arrow_point_spec xs vs k H L) as ([e f] & Gx & Gv & _).
  exists {| Main.pt1 := p1; Main.pt2 := p2; Main.arrow := (e, f) |}.
  split.
  - unfold Main.annotation_points. rewrite C.
    cbn [Main.and_then]. rewrite Gx, Gv. reflexivity.
  - cbn [Main.pt1 Main.pt2]. repeat split; try assumption.
    + exact (nth_error_In _ _ N1).
    + exact (nth_error_In _ _ N2).
Qed.

(** X1, witness: twelve points split at 0, and at 5. *)
Lemma cycle_annotations_on_cycle_witness :
  let xs := Np.filled [1; 2; 3; 4; 5; 6; 7; 8; 9; 10; 11; 12]%float in
  let vs := Np.filled [0; 0; 0; 0; 0; 0; 0; 0; 0; 0; 0; 0.5]%float in
  1 <= len xs /\ len vs = len xs /\
  let s := PhasePortrait.split_transient xs vs 0 in
  let cycle := combine (Np.values (PhasePortrait.xs_cy s))
                       (Np.values (PhasePortrait.vs_cy s)) in
  let n := len (PhasePortrait.xs_cy s) in
  exists a,
    Main.annotation_points xs vs s = Ok a /\
    nth_error cycle (Z.to_nat (if 10 <? n then n / 5 else n - 1))
    = Some (Main.pt1 a) /\
    nth_error cycle (Z.to_nat (if 10 <? n then n / 2 else n - 1))
    = Some (Main.pt2 a) /\
    In (Main.pt1 a) cycle /\ In (Main.pt2 a) cycle.
Proof.
  intros xs vs. split; [vm_compute; discriminate|]. split; [reflexivity|].
  apply (cycle_annotations_on_cycle xs vs 0); [vm_compute; discriminate|reflexivity].
Defined.

(** X2.  For two arrays of the same length [N >= 1] and every split
    index, the point of the "arrow of time" annotation is entry
    [min(4000, t - 1)] of the transient when the effective split index
    [t] is positive; when the transient is empty it is entry 0 of the
    trajectory, which is the first point of the cycle. *)
Theorem arrow_annotation_on_transient :
  forall xs vs k,
  1 <= len xs -> len vs = len xs ->
  let s := PhasePortrait.split_transient xs vs k in
  let t := PhasePortrait.transient s in
  exists a,
    Main.annotation_points xs vs s = Ok a /\
    Main.arrow_index s = (if 0 <? t then Z.min 4000 (t - 1) else 0) /\
    nth_error (combine (Np.values xs) (Np.values vs))
              (Z.to_nat (Main.arrow_index s)) = Some (Main.arrow a) /\
    (0 < t ->
     nth_error (combine (Np.values (PhasePortrait.xs_tr s))
                        (Np.values (PhasePortrait.vs_tr s)))
               (Z.to_nat (Main.arrow_index s)) = Some (Main.arrow a)) /\
    (t = 0 ->
     nth_error (combine (Np.values (PhasePortrait.xs_cy s))
                        (Np.values (PhasePortrait.vs_cy s))) 0
     = Some (Main.arrow a)).
Proof.
  intros xs vs k H L s t. subst t s.
  destruct (cycle_points_spec xs vs k H L) as (p1 & p2 & C & _).
  destruct (arrow_point_spec xs vs k H L) as ([e f] & Gx & Gv & N & T & Z0).
  destruct (arrow_index_spec xs vs k H L) as (E & _).
  destruct (split_fields xs vs k H L) as (Tt & _).
  exists {| Main.pt1 := p1; Main.pt2 := p2; Main.arrow := (e, f) |}.
  split.
  - unfold Main.annotation_points. rewrite C.
    cbn [Main.and_then]. rewrite Gx, Gv. reflexivity.
  - cbn [Main.arrow]. rewrite Tt.
    repeat split; assumption.
Qed.

(** X2, witness: five points, split index 3. *)
Lemma arrow_annotation_on_transient_witness :
  let xs := Np.filled [1; 2; 3; 4; 5]%float in
  let vs := Np.filled [6; 7; 8; 9; 10]%float in
  1 <= len xs /\ len vs = len xs /\
  let s := PhasePortrait.split_transient xs vs 3 in
  let t := PhasePortrait.transient s in
  exists a,
    Main.annotation_points xs vs s = Ok a /\
    Main.arrow_index s = (if 0 <? t then Z.min 4000 (t - 1) else 0) /\
    nth_error (combine (Np.values xs) (Np.values vs))
              (Z.to_nat (Main.arrow_index s)) = Some (Main.arrow a) /\
    (0 < t ->
     nth_error (combine (Np.values (PhasePortrait.xs_tr s))
                        (Np.values (PhasePortrait.vs_tr s)))
               (Z.to_nat (Main.arrow_index s)) = Some (Main.arrow a)) /\
    (t = 0 ->
     nth_error (combine (Np.values (PhasePortrait.xs_cy s))
                        (Np.values (PhasePortrait.vs_cy s))) 0
     = Some (Main.arrow a)).
Proof.
  intros xs vs. split; [vm_compute; discriminate|]. split; [reflexivity|].
  apply (arrow_annotation_on_transient xs vs 3); [vm_compute; discriminate|reflexivity].
Defined.

(** Concrete run of the point selection: five points split at 3. *)
Example annotation_points_five :
  let xs := Np.filled [1; 2; 3; 4; 5]%float in
  let vs := Np.filled [6; 7; 8; 9; 10]%float in
  Main.annotation_points xs vs (PhasePortrait.split_transient xs vs 3)
  = Ok {| Main.pt1 := (5, 10)%float; Main.pt2 := (5, 10)%float;
          Main.arrow := (3, 8)%float |}.
Proof. vm_compute. reflexivity. Qed.

(** With no positions the [else] branch of the cycle points reads
    [xs[-1]] of an empty array. *)
Lemma annotation_points_nil vs k :
  Main.annotation_points [] vs (PhasePortrait.split_transient [] vs k)
  = Raise IndexError.
Proof.
  unfold Main.annotation_points, Main.cycle_points.
  unfold PhasePortrait.split_transient.
  cbn [PhasePortrait.xs_cy PhasePortrait.xs_tr].
  unfold slice_from. cbn [skipn]. rewrite skipn_nil.
  change (len (@nil Np.cell)) with 0. cbn [Z.ltb Z.compare].
  now rewrite getitem_empty.
Qed.

(** X3.  On an empty trajectory the point selection raises
    [IndexError], whatever the split index: the cycle has no more than
    ten points, and [xs[-1]] does not exist. *)
Theorem annotations_fail_on_empty :
  forall vs k,
  Main.annotation_points [] vs (PhasePortrait.split_transient [] vs k)
  = Raise IndexError.
Proof. intros vs k. apply annotation_points_nil. Qed.

(** X4.  The outcomes of the numeric path of [main], by the step
    count and the allocator: a negative count, or one of [2 ^ 60] or
    more, ends in the [ValueError] of [np.empty] with nothing printed;
    a count the allocator has no memory for ends in [MemoryError] with
    nothing printed; zero steps end in [IndexError] at the choice of
    the annotation points ([xs[-1]] of an empty array), after the
    integrator has printed its [Done] line (when progress is on); any
    other count gets through the split and the choice of the points,
    with a cycle segment that is never empty. *)
Theorem main_outcome_by_steps :
  forall heap mem args out,
  let steps := Main.steps args in
  let served :=
    PhasePortrait.serves_xs heap steps && PhasePortrait.serves_vs heap steps in
  (steps < 0 \/ 2 ^ 60 <= steps ->
   Main.main heap mem args out = (Raise ValueError, out)) /\
  (0 <= steps < 2 ^ 60 -> served = false ->
   Main.main heap mem args out = (Raise MemoryError, out)) /\
  (steps = 0 -> served = true ->
   Main.main heap mem args out
   = (Raise IndexError, out ++ (if Main.no_progress args then [] else [Done]))) /\
  (1 <= steps < 2 ^ 60 -> served = true ->
   exists s a out',
     Main.main heap mem args out = (Ok (s, a), out') /\
     len (PhasePortrait.xs_tr s) + len (PhasePortrait.xs_cy s) = steps /\
     1 <= len (PhasePortrait.xs_cy s)).
Proof.
  intros heap mem args out steps served. subst steps served. unfold Main.main.
  split; [|split; [|split]].
  - intros [H|H]; unfold bind.
    + now rewrite integrate_vdp_neg.
    + now rewrite integrate_vdp_too_big.
  - intros H S. unfold bind. now rewrite integrate_vdp_refused.
  - intros H S. apply andb_prop in S. destruct S as [Sx Sv].
    unfold bind at 1.
    rewrite integrate_vdp_spec by (try assumption; rewrite H; lia). cbn zeta.
    rewrite H. cbn [Z.to_nat Euler.trajectory map Np.filled fst snd range seq flat_map].
    unfold bind, lift. rewrite annotation_points_nil.
    now destruct (Main.no_progress args).
  - intros H S. apply andb_prop in S. destruct S as [Sx Sv].
    unfold bind at 1. rewrite integrate_vdp_spec by allocated. cbn zeta. cbn [fst snd].
    set (tr := Euler.trajectory _ _ _ _).
    assert (L : length tr = Z.to_nat (Main.steps args)) by apply trajectory_length.
    clearbody tr.
    assert (Lx : len (Np.filled (map fst tr)) = Main.steps args)
      by (unfold len; rewrite filled_length, length_map, L; lia).
    assert (Lv : len (Np.filled (map snd tr)) = len (Np.filled (map fst tr)))
      by (unfold len; now rewrite !filled_length, !length_map).
    assert (N1 : 1 <= len (Np.filled (map fst tr))) by lia.
    destruct (cycle_annotations_free _ _ (Main.transient args) N1 Lv)
      as (a & A).
    unfold bind, lift, ret. rewrite A. eexists _, _, _. split; [reflexivity|].
    destruct (split_fields _ _ (Main.transient args) N1 Lv)
      as (_ & _ & _ & _ & _ & T & C & _).
    rewrite T, C. lia.
Qed.

(** Three runs of [main] that end in an exception of [np.empty] or of
    the annotations. *)
Example main_failures :
  let args n := {| Main.mu := 1.2; Main.dt := 0.01; Main.steps := n;
                   Main.x0 := 0.1; Main.v0 := 0; Main.transient := 12000;
                   Main.no_progress := false |}%float in
  Main.main PhasePortrait.roomy PhasePortrait.stale (args (2 ^ 63)) []
  = (Raise ValueError, []) /\
  Main.main PhasePortrait.exhausted PhasePortrait.stale (args 20000) []
  = (Raise MemoryError, []) /\
  Main.main PhasePortrait.roomy PhasePortrait.stale (args 0) []
  = (Raise IndexError, [Done]).
Proof. repeat split; vm_compute; reflexivity. Qed.

End MainPath.

(** ** The split, for every index and every length *)

Section SplitRegimes.
Import Py.
Local Open Scope Z_scope.

(** X5.  The split loses and repeats nothing, whatever the index and
    even on an empty trajectory: transient followed by cycle is the
    whole array.  An index [k <= 0] gives an empty transient; an index
    in [0, N - 1] is used as it is; an index [k >= N - 1] leaves exactly
    the last recorded point in the cycle. *)
Theorem split_regimes :
  forall xs vs k,
  let s := PhasePortrait.split_transient xs vs k in
  PhasePortrait.xs_tr s ++ PhasePortrait.xs_cy s = xs /\
  PhasePortrait.vs_tr s ++ PhasePortrait.vs_cy s = vs /\
  (k <= 0 ->
   PhasePortrait.transient s = 0 /\
   PhasePortrait.xs_tr s = [] /\ PhasePortrait.xs_cy s = xs) /\
  (0 <= k <= len xs - 1 ->
   PhasePortrait.transient s = k /\ len (PhasePortrait.xs_tr s) = k) /\
  (1 <= len xs <= k + 1 ->
   PhasePortrait.transient s = len xs - 1 /\
   exists c, PhasePortrait.xs_cy s = [c] /\ Np.getitem xs (-1) = Ok (Np.value c)).
Proof.
  intros xs vs k s. subst s. unfold PhasePortrait.split_transient.
  cbn [PhasePortrait.transient PhasePortrait.xs_tr PhasePortrait.xs_cy
       PhasePortrait.vs_tr PhasePortrait.vs_cy].
  unfold slice_to, slice_from. rewrite !firstn_skipn.
  split; [reflexivity|]. split; [reflexivity|].
  assert (N : 0 <= len xs) by (unfold len; lia).
  split; [|split].
  - intros H. replace (Z.max 0 (Z.min k (len xs - 1))) with 0 by lia.
    now rewrite clip_in_range by lia.
  - intros H. replace (Z.max 0 (Z.min k (len xs - 1))) with k by lia.
    rewrite clip_in_range by lia. split; [reflexivity|].
    unfold len in *. rewrite length_firstn. lia.
  - intros H. replace (Z.max 0 (Z.min k (len xs - 1))) with (len xs - 1) by lia.
    split; [reflexivity|]. rewrite clip_in_range by lia.
    destruct (getitem_last xs ltac:(lia)) as (c & Nc & Gc).
    exists c. split; [|assumption].
    assert (L : length (skipn (Z.to_nat (len xs - 1)) xs) = 1%nat)
      by (rewrite length_skipn; unfold len in *; lia).
    assert (Nc' : nth_error (skipn (Z.to_nat (len xs - 1)) xs) 0 = Some c)
      by (rewrite nth_error_skipn, Nat.add_0_r; exact Nc).
    destruct (skipn (Z.to_nat (len xs - 1)) xs) as [|d [|d' l]]; try discriminate.
    cbn in Nc'. now injection Nc' as ->.
Qed.

End SplitRegimes.

(** ** The progress percentage *)

Section Percentage.
Import Py.
Local Open Scope Z_scope.

Let fexp := SpecFloat.fexp prec emax.

Ltac fexp_lia' :=
  unfold fexp, SpecFloat.fexp, SpecFloat.emin, prec, emax in *; lia.

(** Rounding a small value stays below every bound [C * 2 ^ - e] the
    value is strictly below. *)
Lemma binary_round_aux_below s m e l C :
  0 <= m -> e <= fexp (Zdigits2 m + e) -> Zdigits2 m + e <= 8 ->
  m < C * 2 ^ (- e) ->
  match binary_round_aux prec emax s m e l with
  | S754_zero _ => True
  | S754_finite s' m' e' => s' = s /\ e' <= 0 /\ Zpos m' <= C * 2 ^ (- e')
  | _ => False
  end.
Proof.
  intros Hm Hc Hd Hb. unfold binary_round_aux.
  destruct (shr_fexp prec emax m e l) as [mrs' e1] eqn:E1.
  destruct (shr_fexp_canonical _ _ _ _ _ Hm Hc E1) as (P1 & C1 & X1 & B1).
  destruct (shr_fexp_spec _ _ _ _ _ Hm E1) as (Q1 & N1).
  pose proof (round_nearest_even_bounds (shr_m mrs') (loc_of_shr_record mrs')) as R.
  set (m1 := round_nearest_even (shr_m mrs') (loc_of_shr_record mrs')) in *.
  assert (Hm1 : 0 <= m1) by lia.
  destruct (shr_fexp prec emax m1 e1 loc_Exact) as [mrs'' e2] eqn:E2.
  assert (Hc1 : e1 <= fexp (Zdigits2 m1 + e1)).
  { fold fexp in C1. rewrite <- C1 at 1. apply fexp_mono.
    pose proof (Zdigits2_mono (shr_m mrs') m1). lia. }
  destruct (shr_fexp_canonical _ _ _ _ _ Hm1 Hc1 E2) as (P2 & C2 & X2 & B2).
  destruct (shr_fexp_spec _ _ _ _ _ Hm1 E2) as (Q2 & N2).
  fold fexp in X1, X2, B1, B2, N1, N2, Q1, Q2.
  set (n1 := Z.max 0 (fexp (Zdigits2 m + e) - e)) in *.
  set (n2 := Z.max 0 (fexp (Zdigits2 m1 + e1) - e1)) in *.
  assert (D1 : Zdigits2 m1 <= Zdigits2 (shr_m mrs') + 1).
  { pose proof (Zdigits2_succ (shr_m mrs') P1).
    pose proof (Zdigits2_mono m1 (shr_m mrs' + 1)). lia. }
  assert (E1neg : e1 <= -45) by (clearbody n1 n2; fexp_lia').
  assert (E2neg : e2 <= -44) by (clearbody n1 n2; fexp_lia').
  assert (Hn1 : 0 <= n1) by (unfold n1; lia).
  assert (Hn2 : 0 <= n2) by (unfold n2; lia).
  assert (P21 : 0 < 2 ^ n1) by (apply Z.pow_pos_nonneg; lia).
  assert (P22 : 0 < 2 ^ n2) by (apply Z.pow_pos_nonneg; lia).
  assert (S1 : shr_m mrs' < C * 2 ^ (- e1)).
  { rewrite Q1. apply Z.div_lt_upper_bound; [assumption|].
    replace (- e) with (n1 + - e1) in Hb by lia.
    rewrite Z.pow_add_r in Hb by lia. lia. }
  assert (S2 : shr_m mrs'' <= C * 2 ^ (- e2)).
  { rewrite Q2. apply Z.div_le_upper_bound; [assumption|].
    replace (- e1) with (n2 + - e2) in S1 by lia.
    rewrite Z.pow_add_r in S1 by lia. lia. }
  destruct (shr_m mrs'') as [|p|p] eqn:M; try lia; auto.
  destruct (Z.leb_spec e2 (emax - prec)); [|unfold emax, prec in *; lia].
  repeat split; lia.
Qed.

(** The quotient of two positive integers with [a < 100 * b], as a
    float: non-negative, with value at most [100]. *)
Lemma SF64div_below_100 (a b : positive) :
  Zpos a < 100 * Zpos b ->
  match SF64div (Z2SF (Zpos a)) (Z2SF (Zpos b)) with
  | S754_zero _ => True
  | S754_finite s m e => s = false /\ e <= 0 /\ Zpos m <= 100 * 2 ^ (- e)
  | _ => False
  end.
Proof.
  intros Hab. unfold SF64div, Z2SF, SFdiv, SFdiv_core_binary.
  fold fexp. rewrite !Z.add_0_r, !Z.sub_0_r, Z.sub_0_l.
  set (d1 := Zdigits2 (Zpos a)). set (d2 := Zdigits2 (Zpos b)).
  destruct (Zdigits2_bounds (Zpos a) ltac:(lia)) as [A1 A2].
  destruct (Zdigits2_bounds (Zpos b) ltac:(lia)) as [B1 B2].
  fold d1 in A1, A2. fold d2 in B1, B2.
  assert (D1 : 0 < d1) by (unfold d1; simpl; lia).
  assert (D2 : 0 < d2) by (unfold d2; simpl; lia).
  assert (D12 : d1 - d2 <= 7).
  { destruct (Z.le_gt_cases (d1 - d2) 7) as [|G]; auto. exfalso.
    assert (2 ^ (d2 + 7) <= 2 ^ (d1 - 1)) by (apply Z.pow_le_mono_r; lia).
    rewrite Z.pow_add_r in H by lia. change (2 ^ 7) with 128 in H. lia. }
  set (e0 := Z.min (fexp (d1 - d2)) 0).
  assert (E0 : e0 = fexp (d1 - d2)) by (unfold e0; fexp_lia').
  assert (S0 : 0 < - e0) by (rewrite E0; fexp_lia').
  destruct (- e0) as [|s|s] eqn:S; try lia.
  rewrite Z.shiftl_mul_pow2 by lia.
  destruct (Z.div_eucl (Zpos a * 2 ^ Zpos s) (Zpos b)) as [q r] eqn:DE.
  pose proof (Z_div_mod (Zpos a * 2 ^ Zpos s) (Zpos b) ltac:(lia)) as DM.
  rewrite DE in DM. destruct DM as [DM1 DM2].
  assert (P2 : 0 < 2 ^ Zpos s) by (apply Z.pow_pos_nonneg; lia).
  assert (Q0 : 0 <= q) by nia.
  assert (UB : Zdigits2 q + e0 <= 8).
  { destruct (Z.le_gt_cases 0 (d1 + Zpos s - d2 + 1)) as [X|X].
    - assert (Zdigits2 q <= d1 + Zpos s - d2 + 1); [|lia].
      apply Zdigits2_le; try lia.
      assert (EQ : 2 ^ (d1 + Zpos s - d2 + 1) * 2 ^ (d2 - 1) = 2 ^ d1 * 2 ^ Zpos s).
      { rewrite <- !Z.pow_add_r by lia. f_equal. lia. }
      assert (0 < 2 ^ (d2 - 1)) by (apply Z.pow_pos_nonneg; lia).
      assert (0 < 2 ^ (d1 + Zpos s - d2 + 1)) by (apply Z.pow_pos_nonneg; lia).
      nia.
    - assert (q = 0); [|subst q; simpl; lia].
      assert (2 ^ (d1 + Zpos s) <= 2 ^ (d2 - 1)) by (apply Z.pow_le_mono_r; lia).
      rewrite Z.pow_add_r in H by lia. nia. }
  assert (LB : e0 <= fexp (Zdigits2 q + e0)).
  { destruct (Z.eq_dec e0 (-1074)) as [->|NE]; [fexp_lia'|].
    assert (ES : Zpos s = 53 - (d1 - d2)) by fexp_lia'.
    assert (53 <= Zdigits2 q); [|fexp_lia'].
    assert (2 ^ 52 <= q).
    { assert (EQ : 2 ^ (d1 - 1) * 2 ^ Zpos s = 2 ^ 52 * 2 ^ d2).
      { rewrite <- !Z.pow_add_r by lia. f_equal. lia. }
      assert (0 < 2 ^ d2) by (apply Z.pow_pos_nonneg; lia).
      assert (0 < 2 ^ 52) by (apply Z.pow_pos_nonneg; lia).
      nia. }
    apply Zdigits2_ge; [|exact H].
    assert (0 < 2 ^ 52) by (apply Z.pow_pos_nonneg; lia). lia. }
  assert (QB : q < 100 * 2 ^ (- e0)).
  { rewrite S. nia. }
  pose proof (binary_round_aux_below false q e0 (new_location (Zpos b) r) 100
                Q0 LB UB QB) as R.
  cbn [xorb].
  destruct (binary_round_aux prec emax false q e0 (new_location (Zpos b) r));
    auto.
Qed.

(** [100 * b / b] is the float [100], exactly. *)
Lemma truediv_100 b : 0 < b -> truediv (100 * b) b = Ok 100%float.
Proof.
  intros H. unfold truediv.
  destruct (Z.eqb_spec b 0) as [|_]; [lia|].
  destruct b as [|p|p]; try lia. clear H.
  change (100 * Zpos p) with (Zpos (100 * p)).
  unfold SF64div, Z2SF, SFdiv, SFdiv_core_binary.
  rewrite !Z.add_0_r, !Z.sub_0_r, Z.sub_0_l.
  set (d1 := Zdigits2 (Zpos (100 * p))). set (d2 := Zdigits2 (Zpos p)).
  destruct (Zdigits2_bounds (Zpos (100 * p)) ltac:(lia)) as [A1 A2].
  destruct (Zdigits2_bounds (Zpos p) ltac:(lia)) as [B1 B2].
  fold d1 in A1, A2. fold d2 in B1, B2.
  assert (D2 : 0 < d2) by (unfold d2; simpl; lia).
  assert (D1 : 0 < d1) by (unfold d1; simpl; lia).
  assert (LO : d2 + 6 <= d1).
  { destruct (Z.le_gt_cases (d2 + 6) d1) as [|G]; auto. exfalso.
    assert (2 ^ d1 <= 2 ^ (d2 + 5)) by (apply Z.pow_le_mono_r; lia).
    replace (d2 + 5) with ((d2 - 1) + 6) in H by lia.
    rewrite Z.pow_add_r in H by lia. change (2 ^ 6) with 64 in H. lia. }
  assert (HI : d1 <= d2 + 7).
  { destruct (Z.le_gt_cases d1 (d2 + 7)) as [|G]; auto. exfalso.
    assert (2 ^ (d2 + 7) <= 2 ^ (d1 - 1)) by (apply Z.pow_le_mono_r; lia).
    rewrite Z.pow_add_r in H by lia. change (2 ^ 7) with 128 in H. lia. }
  assert (EX : forall sh, 0 < sh ->
             Z.div_eucl (Zpos (100 * p) * 2 ^ sh) (Zpos p) = (100 * 2 ^ sh, 0)).
  { intros sh Hs.
    destruct (Z.div_eucl (Zpos (100 * p) * 2 ^ sh) (Zpos p)) as [q r] eqn:DE.
    pose proof (Z_div_mod (Zpos (100 * p) * 2 ^ sh) (Zpos p) ltac:(lia)) as DM.
    rewrite DE in DM. destruct DM as [DM1 DM2].
    assert (0 < 2 ^ sh) by (apply Z.pow_pos_nonneg; lia).
    assert (q = 100 * 2 ^ sh) by nia. subst q.
    f_equal. lia. }
  assert (LOC : new_location (Zpos p) 0 = loc_Exact).
  { unfold new_location, new_location_even, new_location_odd.
    now destruct (Z.even (Zpos p)). }
  destruct (Z.eq_dec d1 (d2 + 6)) as [E|E].
  - replace (d1 - d2) with 6 by lia.
    change (Z.min (SpecFloat.fexp prec emax 6) 0) with (-47).
    change (- -47) with 47. rewrite Z.shiftl_mul_pow2 by lia.
    rewrite EX by lia. rewrite LOC. vm_compute. reflexivity.
  - replace (d1 - d2) with 7 by lia.
    change (Z.min (SpecFloat.fexp prec emax 7) 0) with (-46).
    change (- -46) with 46. rewrite Z.shiftl_mul_pow2 by lia.
    rewrite EX by lia. rewrite LOC. vm_compute. reflexivity.
Qed.

(** The percentage of iteration [i] lies between 0 and 100, and is
    100 at the last iteration. *)
Lemma pct_range steps i :
  0 <= i < steps ->
  exists q pct,
    truediv (100 * (i + 1)) steps = Ok q /\ int q = Ok pct /\
    0 <= pct <= 100 /\ (i = steps - 1 -> pct = 100).
Proof.
  intros H. destruct (Z.eq_dec i (steps - 1)) as [->|NE].
  - replace (steps - 1 + 1) with steps by lia.
    rewrite truediv_100 by lia. exists 100%float, 100.
    split; [reflexivity|]. split; [vm_compute; reflexivity|]. split; lia.
  - unfold truediv.
    destruct (Z.eqb_spec steps 0) as [|_]; [lia|].
    destruct (100 * (i + 1)) as [|a|a] eqn:A; try lia.
    destruct steps as [|b|b]; try lia.
    destruct (SF64div_small a b ltac:(lia)) as [V _].
    pose proof (SF64div_below_100 a b ltac:(lia)) as B.
    destruct (SF64div (Z2SF (Zpos a)) (Z2SF (Zpos b))) as [s|s| |s m e] eqn:Q;
      try contradiction.
    + exists (SF2Prim (S754_zero s)), 0. split; [reflexivity|].
      unfold int. rewrite Prim2SF_SF2Prim by reflexivity.
      repeat split; lia.
    + destruct B as (-> & E & M).
      exists (SF2Prim (S754_finite false m e)), (Z.shiftl (Zpos m) e).
      split; [reflexivity|]. unfold int. rewrite Prim2SF_SF2Prim by exact V.
      split; [reflexivity|].
      rewrite Z.shiftl_div_pow2 by lia.
      assert (0 < 2 ^ (- e)) by (apply Z.pow_pos_nonneg; lia).
      repeat split; try lia.
      * apply Z.div_pos; lia.
      * apply Z.div_le_upper_bound; lia.
Qed.

End Percentage.

(** ** What [integrate_vdp] prints *)

Section ProgressLog.
Import Py.
Local Open Scope Z_scope.

Variables (steps checkpoint : Z).
Hypothesis checkpoint_pos : 0 < checkpoint.

Let log (i : Z) : stdout := snd (PhasePortrait.report true checkpoint steps i []).

(** Iteration [i] prints one line when it is a checkpoint or the last
    iteration, and nothing otherwise. *)
Lemma report_log i :
  0 <= i < steps ->
  exists pct,
    0 <= pct <= 100 /\ (i = steps - 1 -> pct = 100) /\
    log i = if (i mod checkpoint =? 0) || (i =? steps - 1)
            then [Integrating pct] else [].
Proof.
  intros H. destruct (pct_range steps i H) as (q & pct & Q & P & R & L).
  exists pct. split; [assumption|]. split; [assumption|].
  unfold log, PhasePortrait.report, bind, lift, print, ret.
  rewrite mod_ok by lia.
  destruct ((i mod checkpoint =? 0) || (i =? steps - 1))%bool; [|reflexivity].
  now rewrite Q, P.
Qed.

Lemma range_snoc m :
  map Z.of_nat (seq 0 (S m)) = map Z.of_nat (seq 0 m) ++ [Z.of_nat m].
Proof. now rewrite seq_S, map_app. Qed.

(** Counting the lines of the first [m] iterations: [c1] checkpoints
    and [c2] extra lines for the last iteration. *)
Lemma log_count m :
  Z.of_nat m <= steps ->
  exists c1 c2 : nat,
    length (flat_map log (map Z.of_nat (seq 0 m))) = (c1 + c2)%nat /\
    checkpoint * Z.of_nat c1 <= Z.of_nat m + checkpoint - 1 /\
    (c2 = 0%nat \/ (c2 = 1%nat /\ steps <= Z.of_nat m)) /\
    (checkpoint = 1 -> c2 = 0%nat).
Proof.
  induction m as [|m IH]; intros H.
  - exists 0%nat, 0%nat. cbn. repeat split; auto; lia.
  - destruct (IH ltac:(lia)) as (c1 & c2 & L & B1 & B2 & B3).
    rewrite range_snoc, flat_map_app, length_app, L. cbn [flat_map].
    rewrite app_nil_r.
    destruct (report_log (Z.of_nat m) ltac:(lia)) as (pct & _ & _ & E).
    rewrite E.
    destruct (Z.eqb_spec (Z.of_nat m mod checkpoint) 0) as [M|M]; cbn [orb].
    + exists (S c1), c2. cbn [length]. repeat split; auto; try lia.
      * pose proof (Z.div_mod (Z.of_nat m) checkpoint ltac:(lia)) as DM.
        rewrite M in DM. set (q := Z.of_nat m / checkpoint) in *.
        destruct (Z.le_gt_cases (Z.of_nat c1) q) as [Le|Gt].
        -- assert (checkpoint * Z.of_nat c1 <= checkpoint * q)
             by (apply Z.mul_le_mono_nonneg_l; lia).
           lia.
        -- assert (checkpoint * (q + 1) <= checkpoint * Z.of_nat c1)
             by (apply Z.mul_le_mono_nonneg_l; lia).
           lia.
    + destruct (Z.eqb_spec (Z.of_nat m) (steps - 1)) as [Last|NotLast].
      * exists c1, 1%nat. cbn [length].
        assert (c2 = 0%nat) by (destruct B2 as [|[_ ?]]; [assumption|lia]).
        subst c2. split; [lia|]. split; [lia|]. split; [lia|].
        intros ->. rewrite Z.mod_1_r in M. contradiction.
      * exists c1, c2. cbn [length]. split; [lia|]. split; [lia|].
        split; [lia|assumption].
Qed.

End ProgressLog.

Section ProgressOutput.
Import Py.
Local Open Scope Z_scope.

Variables (heap : PhasePortrait.allocator) (mem : PhasePortrait.memory).
Variables (mu dt : float) (steps : Z) (x0 v0 : float).

Let lines : stdout :=
  flat_map (fun i => snd (PhasePortrait.report true (Z.max 1 (steps / 20)) steps i []))
           (range steps).

Lemma progress_printed out :
  0 <= steps < 2 ^ 60 ->
  PhasePortrait.serves_xs heap steps = true ->
  PhasePortrait.serves_vs heap steps = true ->
  snd (PhasePortrait.integrate_vdp heap mem mu dt steps x0 v0 true out)
  = out ++ lines ++ [Done].
Proof. intros H Sx Sv. now rewrite integrate_vdp_spec. Qed.

(** With progress reporting off, or when no arrays are allocated,
    nothing is printed. *)
Lemma nothing_printed show_progress out :
  show_progress = false \/
  ~ (0 <= steps < 2 ^ 60 /\
     PhasePortrait.serves_xs heap steps = true /\
     PhasePortrait.serves_vs heap steps = true) ->
  snd (PhasePortrait.integrate_vdp heap mem mu dt steps x0 v0 show_progress out)
  = out.
Proof.
  intros C.
  destruct (integrate_vdp_outcome heap mu dt steps x0 v0)
    as [(e & _ & E)|(H & Sx & Sv)].
  - now rewrite E.
  - destruct C as [->|C]; [|tauto].
    rewrite integrate_vdp_spec by assumption. cbn [fst snd].
    rewrite app_nil_r.
    replace (flat_map _ (range steps)) with (@nil output);
      [now rewrite app_nil_r|].
    induction (range steps) as [|i l IH]; [reflexivity|exact IH].
Qed.

Lemma lines_percentages :
  Forall (fun o => exists pct, o = Integrating pct /\ 0 <= pct <= 100) lines.
Proof.
  apply Forall_forall. intros o H. apply in_flat_map in H.
  destruct H as (i & Hi & Ho). apply range_bounds in Hi.
  destruct (report_log steps (Z.max 1 (steps / 20)) ltac:(lia) i Hi)
    as (pct & R & _ & E).
  rewrite E in Ho.
  destruct ((i mod Z.max 1 (steps / 20) =? 0) || (i =? steps - 1))%bool.
  - destruct Ho as [<-|[]]. now exists pct.
  - destruct Ho.
Qed.

Lemma lines_count : 0 <= steps -> (length lines <= 39)%nat.
Proof.
  intros H.
  destruct (log_count steps (Z.max 1 (steps / 20)) ltac:(lia) (Z.to_nat steps)
              ltac:(lia)) as (c1 & c2 & L & B1 & B2 & B3).
  unfold lines, range. rewrite L. rewrite Z2Nat.id in B1 by assumption.
  destruct (Z.lt_ge_cases steps 20) as [Small|Large].
  - assert (D : steps / 20 = 0) by (apply Z.div_small; lia).
    rewrite D in *. change (Z.max 1 0) with 1 in *.
    rewrite (B3 eq_refl). lia.
  - pose proof (Z.div_mod steps 20 ltac:(lia)) as DM.
    pose proof (Z.mod_pos_bound steps 20 ltac:(lia)) as MB.
    set (c := steps / 20) in *. assert (1 <= c) by lia.
    rewrite Z.max_r in * by lia.
    destruct (Z.eq_dec c 1) as [One|Two].
    + rewrite (B3 One). rewrite One in *. lia.
    + assert (C2 : (c2 <= 1)%nat) by (destruct B2 as [->|[-> _]]; lia).
      assert (C1 : Z.of_nat c1 <= 30); [|lia].
      destruct (Z.le_gt_cases (Z.of_nat c1) 30) as [|G]; [assumption|exfalso].
      assert (c * 31 <= c * Z.of_nat c1) by (apply Z.mul_le_mono_nonneg_l; lia).
      lia.
Qed.

Lemma lines_last :
  1 <= steps -> exists before, lines = before ++ [Integrating 100].
Proof.
  intros H. unfold lines, range.
  replace (Z.to_nat steps) with (S (Z.to_nat (steps - 1))) by lia.
  rewrite range_snoc, flat_map_app. cbn [flat_map]. rewrite app_nil_r.
  rewrite Z2Nat.id by lia.
  destruct (report_log steps (Z.max 1 (steps / 20)) ltac:(lia) (steps - 1)
              ltac:(lia)) as (pct & _ & P & E).
  rewrite E, Z.eqb_refl, orb_true_r, (P eq_refl). eexists. reflexivity.
Qed.

Lemma lines_first :
  1 <= steps ->
  exists q pct rest,
    truediv 100 steps = Ok q /\ int q = Ok pct /\
    lines = Integrating pct :: rest.
Proof.
  intros H. unfold lines, range.
  replace (Z.to_nat steps) with (S (Z.to_nat (steps - 1))) by lia.
  cbn [seq map flat_map].
  destruct (pct_range steps 0 ltac:(lia)) as (q & pct & Q & P & _).
  change (100 * (0 + 1)) with 100 in Q.
  exists q, pct. eexists. split; [exact Q|]. split; [exact P|].
  unfold PhasePortrait.report at 1, bind, lift, print, ret.
  rewrite mod_ok by lia. rewrite Z.mod_0_l by lia. cbn [Z.eqb orb].
  change (100 * (Z.of_nat 0 + 1)) with 100. rewrite Q, P. cbn [snd app].
  reflexivity.
Qed.

End ProgressOutput.

Section ProgressClaims.
Import Py.
Local Open Scope Z_scope.

(** X6.  With progress reporting on, for a count
    [0 <= steps < 2 ^ 60] whose arrays the allocator serves, what
    [integrate_vdp] prints is a run of [Integrating] lines followed by
    one [Done] line, and every percentage shown lies between 0 and 100;
    for [steps = 0] only [Done] is printed. *)
Theorem progress_lines_shape :
  forall heap mem mu dt steps x0 v0 out,
  0 <= steps < 2 ^ 60 ->
  PhasePortrait.serves_xs heap steps = true ->
  PhasePortrait.serves_vs heap steps = true ->
  exists lines,
    snd (PhasePortrait.integrate_vdp heap mem mu dt steps x0 v0 true out)
    = out ++ lines ++ [Done] /\
    Forall (fun o => exists pct, o = Integrating pct /\ 0 <= pct <= 100) lines /\
    (steps = 0 -> lines = []).
Proof.
  intros heap mem mu dt steps x0 v0 out H Sx Sv. eexists.
  split; [now apply progress_printed|]. split; [apply lines_percentages|].
  intros ->. reflexivity.
Qed.

(** X6, witness: three steps. *)
Lemma progress_lines_shape_witness :
  0 <= 3 < 2 ^ 60 /\
  PhasePortrait.serves_xs PhasePortrait.roomy 3 = true /\
  PhasePortrait.serves_vs PhasePortrait.roomy 3 = true /\
  exists lines,
    snd (PhasePortrait.integrate_vdp PhasePortrait.roomy PhasePortrait.stale 1.2 0.01 3 0.1 0 true [])
    = [] ++ lines ++ [Done] /\
    Forall (fun o => exists pct, o = Integrating pct /\ 0 <= pct <= 100) lines /\
    (3 = 0 -> lines = []).
Proof.
  split; [lia|]. split; [reflexivity|]. split; [reflexivity|].
  apply (progress_lines_shape PhasePortrait.roomy PhasePortrait.stale 1.2 0.01 3 0.1 0 []);
    [lia|reflexivity..].
Defined.

(** X7.  Whatever the step count, the allocator and the progress flag
    are, a call of [integrate_vdp] prints at most 39 progress lines,
    followed by [Done] or (when progress is off or an [np.empty]
    raises) by nothing. *)
Theorem progress_lines_bounded :
  forall heap mem mu dt steps x0 v0 show_progress out,
  exists lines tail,
    snd (PhasePortrait.integrate_vdp heap mem mu dt steps x0 v0 show_progress out)
    = out ++ lines ++ tail /\
    (length lines <= 39)%nat /\
    Forall (fun o => exists pct, o = Integrating pct) lines /\
    (tail = [] \/ tail = [Done]).
Proof.
  intros heap mem mu dt steps x0 v0 show_progress out.
  destruct (integrate_vdp_outcome heap mu dt steps x0 v0)
    as [(e & _ & E)|(H & Sx & Sv)].
  - exists [], []. rewrite E. cbn [snd length app]. rewrite app_nil_r.
    split; [reflexivity|]. split; [lia|]. split; [constructor|now left].
  - destruct show_progress.
    + eexists _, [Done]. split; [now apply progress_printed|].
      split; [apply lines_count; lia|]. split; [|now right].
      eapply Forall_impl; [|apply lines_percentages].
      intros o (pct & -> & _). now exists pct.
    + exists [], []. rewrite nothing_printed by now left.
      cbn [length app]. rewrite app_nil_r.
      split; [reflexivity|]. split; [lia|]. split; [constructor|now left].
Qed.

(** The bound is attained: 39 steps print 39 progress lines. *)
Example progress_lines_39 :
  length (snd (PhasePortrait.integrate_vdp PhasePortrait.roomy PhasePortrait.stale 1.2 0.01 39 0.1 0
                 true []))
  = 40%nat.
Proof. vm_compute. reflexivity. Qed.

(** X8.  With progress reporting on, for a count
    [1 <= steps < 2 ^ 60] whose arrays the allocator serves, the first
    iteration prints a line, showing [int(100 / steps)], and the last
    line before [Done] shows 100. *)
Theorem progress_first_and_last :
  forall heap mem mu dt steps x0 v0 out,
  1 <= steps < 2 ^ 60 ->
  PhasePortrait.serves_xs heap steps = true ->
  PhasePortrait.serves_vs heap steps = true ->
  exists lines,
    snd (PhasePortrait.integrate_vdp heap mem mu dt steps x0 v0 true out)
    = out ++ lines ++ [Done] /\
    (exists q pct rest,
        truediv 100 steps = Ok q /\ int q = Ok pct /\
        lines = Integrating pct :: rest) /\
    (exists before, lines = before ++ [Integrating 100]).
Proof.
  intros heap mem mu dt steps x0 v0 out H Sx Sv. eexists.
  split; [apply progress_printed; allocated|].
  split; [apply lines_first; lia|apply lines_last; lia].
Qed.

(** X8, witness: seven steps. *)
Lemma progress_first_and_last_witness :
  1 <= 7 < 2 ^ 60 /\
  PhasePortrait.serves_xs PhasePortrait.roomy 7 = true /\
  PhasePortrait.serves_vs PhasePortrait.roomy 7 = true /\
  exists lines,
    snd (PhasePortrait.integrate_vdp PhasePortrait.roomy PhasePortrait.stale 1.2 0.01 7 0.1 0 true [])
    = [] ++ lines ++ [Done] /\
    (exists q pct rest,
        truediv 100 7 = Ok q /\ int q = Ok pct /\
        lines = Integrating pct :: rest) /\
    (exists before, lines = before ++ [Integrating 100]).
Proof.
  split; [lia|]. split; [reflexivity|]. split; [reflexivity|].
  apply (progress_first_and_last PhasePortrait.roomy PhasePortrait.stale 1.2 0.01 7 0.1 0 []);
    [lia|reflexivity..].
Defined.

End ProgressClaims.

(** ** Runs of different lengths *)

Section Resuming.
Import Py.
Local Open Scope Z_scope.

Lemma trajectory_app law dt n : forall k p,
  Euler.trajectory law dt (n + k) p
  = Euler.trajectory law dt n p
    ++ Euler.trajectory law dt k (Euler.iterate law dt n p).
Proof.
  induction n as [|n IH]; intros k p; [reflexivity|].
  cbn [Nat.add Euler.trajectory Euler.iterate app]. now rewrite IH.
Qed.

Lemma trajectory_last law dt n p :
  (1 <= n)%nat ->
  nth_error (Euler.trajectory law dt n p) (n - 1) = Some (Euler.iterate law dt n p).
Proof.
  intros H. rewrite trajectory_nth by lia. do 2 f_equal. lia.
Qed.

(** X9.  The states a run records do not depend on how many steps
    follow: for two runs whose arrays can be allocated
    ([n + k < 2 ^ 60], each allocator serves its count), under
    whatever allocators and memory contents, the arrays of the run of
    [n] steps are the first [n] entries of the arrays of the run of
    [n + k] steps from the same start. *)
Theorem longer_run_extends_shorter :
  forall heap mem heap' mem' mu dt n k x0 v0 show_progress out,
  0 <= n -> 0 <= k -> n + k < 2 ^ 60 ->
  PhasePortrait.serves_xs heap n = true ->
  PhasePortrait.serves_vs heap n = true ->
  PhasePortrait.serves_xs heap' (n + k) = true ->
  PhasePortrait.serves_vs heap' (n + k) = true ->
  exists xs vs out1 xs' vs' out2,
    PhasePortrait.integrate_vdp heap mem mu dt n x0 v0 show_progress out
    = (Ok (xs, vs), out1) /\
    PhasePortrait.integrate_vdp heap' mem' mu dt (n + k) x0 v0 show_progress out
    = (Ok (xs', vs'), out2) /\
    Np.values xs = firstn (Z.to_nat n) (Np.values xs') /\
    Np.values vs = firstn (Z.to_nat n) (Np.values vs').
Proof.
  intros heap mem heap' mem' mu dt n k x0 v0 show_progress out
         Hn Hk B Sx Sv Sx' Sv'.
  eexists _, _, _, _, _, _.
  split; [apply integrate_vdp_spec; allocated|].
  split; [apply integrate_vdp_spec; allocated|]. cbn zeta.
  rewrite !filled_values, Z2Nat.inj_add, trajectory_app by lia.
  rewrite !map_app.
  split.
  - rewrite firstn_app.
    rewrite length_map, trajectory_length, Nat.sub_diag. cbn [firstn].
    rewrite app_nil_r, firstn_all2; [reflexivity|].
    now rewrite length_map, trajectory_length.
  - rewrite firstn_app.
    rewrite length_map, trajectory_length, Nat.sub_diag. cbn [firstn].
    rewrite app_nil_r, firstn_all2; [reflexivity|].
    now rewrite length_map, trajectory_length.
Qed.

(** X9, witness: two steps against five. *)
Lemma longer_run_extends_shorter_witness :
  0 <= 2 /\ 0 <= 3 /\ 2 + 3 < 2 ^ 60 /\
  PhasePortrait.serves_xs PhasePortrait.roomy 2 = true /\
  PhasePortrait.serves_vs PhasePortrait.roomy 2 = true /\
  PhasePortrait.serves_xs PhasePortrait.roomy (2 + 3) = true /\
  PhasePortrait.serves_vs PhasePortrait.roomy (2 + 3) = true /\
  exists xs vs out1 xs' vs' out2,
    PhasePortrait.integrate_vdp PhasePortrait.roomy PhasePortrait.stale
      1.2 0.01 2 0.1 0 true []
    = (Ok (xs, vs), out1) /\
    PhasePortrait.integrate_vdp PhasePortrait.roomy PhasePortrait.stale
      1.2 0.01 (2 + 3) 0.1 0 true []
    = (Ok (xs', vs'), out2) /\
    Np.values xs = firstn (Z.to_nat 2) (Np.values xs') /\
    Np.values vs = firstn (Z.to_nat 2) (Np.values vs').
Proof.
  split; [lia|]. split; [lia|]. split; [lia|].
  split; [reflexivity|]. split; [reflexivity|].
  split; [reflexivity|]. split; [reflexivity|].
  apply (longer_run_extends_shorter
           PhasePortrait.roomy PhasePortrait.stale
           PhasePortrait.roomy PhasePortrait.stale 1.2 0.01 2 3 0.1 0 true []);
    [lia|lia|lia|reflexivity..].
Defined.

(** X10.  A run can be resumed: for three runs whose arrays can be
    allocated ([n + k < 2 ^ 60], each allocator serves its count),
    under whatever allocators and memory contents, [n >= 1] steps,
    followed by [k] steps started from the last recorded state
    [(xs[-1], vs[-1])], record the same states as one run of [n + k]
    steps. *)
Theorem run_resumes_from_last_state :
  forall heap1 mem1 heap2 mem2 heap mem mu dt n k x0 v0 show_progress out,
  1 <= n -> 0 <= k -> n + k < 2 ^ 60 ->
  PhasePortrait.serves_xs heap1 n = true ->
  PhasePortrait.serves_vs heap1 n = true ->
  PhasePortrait.serves_xs heap2 k = true ->
  PhasePortrait.serves_vs heap2 k = true ->
  PhasePortrait.serves_xs heap (n + k) = true ->
  PhasePortrait.serves_vs heap (n + k) = true ->
  exists xs1 vs1 out1 xl vl xs2 vs2 out2 xs vs out3,
    PhasePortrait.integrate_vdp heap1 mem1 mu dt n x0 v0 show_progress out
    = (Ok (xs1, vs1), out1) /\
    Np.getitem xs1 (-1) = Ok xl /\ Np.getitem vs1 (-1) = Ok vl /\
    PhasePortrait.integrate_vdp heap2 mem2 mu dt k xl vl show_progress out
    = (Ok (xs2, vs2), out2) /\
    PhasePortrait.integrate_vdp heap mem mu dt (n + k) x0 v0 show_progress out
    = (Ok (xs, vs), out3) /\
    Np.values xs = Np.values xs1 ++ Np.values xs2 /\
    Np.values vs = Np.values vs1 ++ Np.values vs2.
Proof.
  intros heap1 mem1 heap2 mem2 heap mem mu dt n k x0 v0 show_progress out
         Hn Hk B Sx1 Sv1 Sx2 Sv2 Sx Sv.
  set (law := PhasePortrait.accel mu).
  set (last := Euler.iterate law dt (Z.to_nat n) (x0, v0)).
  set (tr := Euler.trajectory law dt (Z.to_nat n) (x0, v0)).
  assert (L : length tr = Z.to_nat n) by apply trajectory_length.
  assert (N : nth_error tr (Z.to_nat n - 1) = Some last)
    by (apply trajectory_last; lia).
  assert (Gx : Np.getitem (Np.filled (map fst tr)) (-1) = Ok (fst last)).
  { destruct (getitem_last (Np.filled (map fst tr))) as (c & Nc & Gc).
    - unfold len. rewrite filled_length, length_map, L. lia.
    - rewrite Gc. f_equal. unfold len in Nc.
      rewrite filled_length, length_map, L in Nc.
      replace (Z.to_nat (Z.of_nat (Z.to_nat n) - 1)) with (Z.to_nat n - 1)%nat
        in Nc by lia.
      unfold Np.filled in Nc. rewrite !nth_error_map, N in Nc.
      cbn in Nc. now injection Nc as <-. }
  assert (Gv : Np.getitem (Np.filled (map snd tr)) (-1) = Ok (snd last)).
  { destruct (getitem_last (Np.filled (map snd tr))) as (c & Nc & Gc).
    - unfold len. rewrite filled_length, length_map, L. lia.
    - rewrite Gc. f_equal. unfold len in Nc.
      rewrite filled_length, length_map, L in Nc.
      replace (Z.to_nat (Z.of_nat (Z.to_nat n) - 1)) with (Z.to_nat n - 1)%nat
        in Nc by lia.
      unfold Np.filled in Nc. rewrite !nth_error_map, N in Nc.
      cbn in Nc. now injection Nc as <-. }
  exists (Np.filled (map fst tr)), (Np.filled (map snd tr)).
  eexists. exists (fst last), (snd last). eexists _, _, _, _, _, _.
  split; [apply integrate_vdp_spec; allocated|].
  split; [exact Gx|]. split; [exact Gv|].
  split; [apply integrate_vdp_spec; allocated|].
  split; [apply integrate_vdp_spec; allocated|]. cbn zeta.
  rewrite !filled_values, Z2Nat.inj_add, trajectory_app by lia.
  rewrite !map_app, <- surjective_pairing. split; reflexivity.
Qed.

(** X10, witness: two steps, then three more. *)
Lemma run_resumes_from_last_state_witness :
  1 <= 2 /\ 0 <= 3 /\ 2 + 3 < 2 ^ 60 /\
  PhasePortrait.serves_xs PhasePortrait.roomy 2 = true /\
  PhasePortrait.serves_vs PhasePortrait.roomy 2 = true /\
  PhasePortrait.serves_xs PhasePortrait.roomy 3 = true /\
  PhasePortrait.serves_vs PhasePortrait.roomy 3 = true /\
  PhasePortrait.serves_xs PhasePortrait.roomy (2 + 3) = true /\
  PhasePortrait.serves_vs PhasePortrait.roomy (2 + 3) = true /\
  exists xs1 vs1 out1 xl vl xs2 vs2 out2 xs vs out3,
    PhasePortrait.integrate_vdp PhasePortrait.roomy PhasePortrait.stale
      1.2 0.01 2 0.1 0 false []
    = (Ok (xs1, vs1), out1) /\
    Np.getitem xs1 (-1) = Ok xl /\ Np.getitem vs1 (-1) = Ok vl /\
    PhasePortrait.integrate_vdp PhasePortrait.roomy PhasePortrait.stale
      1.2 0.01 3 xl vl false []
    = (Ok (xs2, vs2), out2) /\
    PhasePortrait.integrate_vdp PhasePortrait.roomy PhasePortrait.stale
      1.2 0.01 (2 + 3) 0.1 0 false []
    = (Ok (xs, vs), out3) /\
    Np.values xs = Np.values xs1 ++ Np.values xs2 /\
    Np.values vs = Np.values vs1 ++ Np.values vs2.
Proof.
  split; [lia|]. split; [lia|]. split; [lia|].
  split; [reflexivity|]. split; [reflexivity|].
  split; [reflexivity|]. split; [reflexivity|].
  split; [reflexivity|]. split; [reflexivity|].
  apply (run_resumes_from_last_state
           PhasePortrait.roomy PhasePortrait.stale
           PhasePortrait.roomy PhasePortrait.stale
           PhasePortrait.roomy PhasePortrait.stale 1.2 0.01 2 3 0.1 0 false []);
    [lia|lia|lia|reflexivity..].
Defined.

End Resuming.

(** ** Non-finite values *)

Section NonFinite.
Local Open Scope float_scope.

(** A finite sum, difference or product has finite operands. *)
Lemma finite_add a b :
  is_finite (a + b) = true -> is_finite a = true /\ is_finite b = true.
Proof.
  rewrite !is_finite_SF, add_spec. unfold SF64add.
  destruct (Prim2SF a) as [sa|sa| |sa ma ea], (Prim2SF b) as [sb|sb| |sb mb eb];
    cbn [SFadd]; auto; try discriminate;
    destruct sa, sb; auto; discriminate.
Qed.

Lemma finite_sub a b :
  is_finite (a - b) = true -> is_finite a = true /\ is_finite b = true.
Proof.
  rewrite !is_finite_SF, sub_spec. unfold SF64sub.
  destruct (Prim2SF a) as [sa|sa| |sa ma ea], (Prim2SF b) as [sb|sb| |sb mb eb];
    cbn [SFsub]; auto; try discriminate;
    destruct sa, sb; auto; discriminate.
Qed.

Lemma finite_mul a b :
  is_finite (a * b) = true -> is_finite a = true /\ is_finite b = true.
Proof.
  rewrite !is_finite_SF, mul_spec. unfold SF64mul.
  destruct (Prim2SF a) as [sa|sa| |sa ma ea], (Prim2SF b) as [sb|sb| |sb mb eb];
    cbn [SFmul]; auto; discriminate.
Qed.

(** NaN is absorbing. *)
Lemma nan_add a b : is_nan a || is_nan b = true -> is_nan (a + b) = true.
Proof.
  rewrite !is_nan_SF, add_spec. unfold SF64add.
  destruct (Prim2SF a) as [sa|sa| |sa ma ea], (Prim2SF b) as [sb|sb| |sb mb eb];
    cbn [SFadd orb]; auto; discriminate.
Qed.

Lemma nan_sub a b : is_nan a || is_nan b = true -> is_nan (a - b) = true.
Proof.
  rewrite !is_nan_SF, sub_spec. unfold SF64sub.
  destruct (Prim2SF a) as [sa|sa| |sa ma ea], (Prim2SF b) as [sb|sb| |sb mb eb];
    cbn [SFsub orb]; auto; discriminate.
Qed.

Lemma nan_mul a b : is_nan a || is_nan b = true -> is_nan (a * b) = true.
Proof.
  rewrite !is_nan_SF, mul_spec. unfold SF64mul.
  destruct (Prim2SF a) as [sa|sa| |sa ma ea], (Prim2SF b) as [sb|sb| |sb mb eb];
    cbn [SFmul orb]; auto; discriminate.
Qed.

Variables mu dt : float.

Let step := Euler.step (PhasePortrait.accel mu) dt.

(** A state with a non-finite component is followed by a state with
    two non-finite components. *)
Lemma step_nonfinite p :
  is_finite (fst p) && is_finite (snd p) = false ->
  is_finite (fst (step p)) = false /\ is_finite (snd (step p)) = false.
Proof.
  destruct p as [x v]. cbn [fst snd]. intros H.
  unfold step, Euler.step, PhasePortrait.accel. cbn [fst snd].
  set (a := mu * (1 - x * x) * v - x).
  assert (V : is_finite (v + a * dt) = false).
  { destruct (is_finite (v + a * dt)) eqn:F; [exfalso|reflexivity].
    apply finite_add in F. destruct F as [Fv F].
    apply finite_mul in F. destruct F as [Fa _].
    apply finite_sub in Fa. destruct Fa as [_ Fx].
    now rewrite Fx, Fv in H. }
  split; [|exact V].
  destruct (is_finite (x + (v + a * dt) * dt)) eqn:F; [exfalso|reflexivity].
  apply finite_add in F. destruct F as [_ F].
  apply finite_mul in F. destruct F as [F _]. congruence.
Qed.

(** A NaN among the parameters or in the state makes the next state
    NaN in both components. *)
Lemma step_nan p :
  is_nan mu || is_nan dt || is_nan (fst p) || is_nan (snd p) = true ->
  is_nan (fst (step p)) = true /\ is_nan (snd (step p)) = true.
Proof.
  destruct p as [x v]. cbn [fst snd]. intros H.
  unfold step, Euler.step, PhasePortrait.accel. cbn [fst snd].
  set (a := mu * (1 - x * x) * v - x).
  assert (V : is_nan (v + a * dt) = true).
  { apply nan_add. destruct (is_nan v) eqn:Nv; [reflexivity|]. cbn [orb].
    apply nan_mul. destruct (is_nan dt) eqn:Nd; [now rewrite orb_true_r|].
    rewrite orb_false_r. unfold a. apply nan_sub.
    destruct (is_nan x) eqn:Nx; [now rewrite orb_true_r|].
    rewrite orb_false_r. apply nan_mul. rewrite Nv, orb_false_r.
    apply nan_mul. destruct (is_nan mu); [reflexivity|discriminate]. }
  split; [|exact V].
  apply nan_add. apply orb_true_iff. right.
  apply nan_mul. now rewrite V.
Qed.

Lemma iterate_nonfinite n : forall p,
  is_finite (fst p) && is_finite (snd p) = false ->
  is_finite (fst (Euler.iterate (PhasePortrait.accel mu) dt n p))
  && is_finite (snd (Euler.iterate (PhasePortrait.accel mu) dt n p)) = false.
Proof.
  induction n as [|n IH]; intros p H; [exact H|].
  cbn [Euler.iterate]. apply IH.
  destruct (step_nonfinite p H) as [Fx _]. fold step. now rewrite Fx.
Qed.

Lemma trajectory_nan n : forall p,
  is_nan mu || is_nan dt || is_nan (fst p) || is_nan (snd p) = true ->
  Forall (fun q => is_nan (fst q) = true /\ is_nan (snd q) = true)
         (Euler.trajectory (PhasePortrait.accel mu) dt n p).
Proof.
  induction n as [|n IH]; intros p H; [constructor|].
  cbn [Euler.trajectory]. destruct (step_nan p H) as [Nx Nv].
  constructor; [now split|]. apply IH. fold step. now rewrite Nx, !orb_true_r.
Qed.

End NonFinite.

Section NonFiniteRuns.
Import Py.
Local Open Scope Z_scope.

Lemma iterate_add law dt n : forall k p,
  Euler.iterate law dt (n + k) p
  = Euler.iterate law dt k (Euler.iterate law dt n p).
Proof. induction n as [|n IH]; intros k p; [reflexivity|]. cbn. apply IH. Qed.

Lemma iterate_S_nonfinite mu dt n : forall p,
  is_finite (fst p) && is_finite (snd p) = false ->
  is_finite (fst (Euler.iterate (PhasePortrait.accel mu) dt (S n) p)) = false /\
  is_finite (snd (Euler.iterate (PhasePortrait.accel mu) dt (S n) p)) = false.
Proof.
  induction n as [|n IH]; intros p H.
  - now apply step_nonfinite.
  - change (Euler.iterate (PhasePortrait.accel mu) dt (S (S n)) p)
      with (Euler.iterate (PhasePortrait.accel mu) dt (S n)
              (Euler.step (PhasePortrait.accel mu) dt p)).
    apply IH. destruct (step_nonfinite mu dt p H) as [Fx _]. now rewrite Fx.
Qed.

(** An overflow in the first step: every recorded value is NaN. *)
Example overflow_run :
  PhasePortrait.integrate_vdp PhasePortrait.roomy PhasePortrait.stale 1.2 0.01 3 1e200 0 false []
  = (Ok (Np.filled [nan; nan; nan], Np.filled [nan; nan; nan]), []).
Proof. vm_compute. reflexivity. Qed.

(** X11.  [integrate_vdp] neither detects nor repairs a non-finite
    value.  In the arrays of a run (for a count [0 <= steps < 2 ^ 60]
    that the allocator serves): when the position or the velocity
    recorded at step [i] is infinite or NaN, the position and the
    velocity recorded at every later step are both non-finite; when
    the initial state has a non-finite component, so has every
    recorded entry. *)
Theorem nonfinite_propagates :
  forall heap mem mu dt steps x0 v0 show_progress out,
  0 <= steps < 2 ^ 60 ->
  PhasePortrait.serves_xs heap steps = true ->
  PhasePortrait.serves_vs heap steps = true ->
  exists xs vs out',
    PhasePortrait.integrate_vdp heap mem mu dt steps x0 v0 show_progress out
    = (Ok (xs, vs), out') /\
    (forall i j xi vi xj vj,
        (i < j)%nat ->
        nth_error (Np.values xs) i = Some xi ->
        nth_error (Np.values vs) i = Some vi ->
        nth_error (Np.values xs) j = Some xj ->
        nth_error (Np.values vs) j = Some vj ->
        is_finite xi && is_finite vi = false ->
        is_finite xj = false /\ is_finite vj = false) /\
    (is_finite x0 && is_finite v0 = false ->
     Forall (fun x => is_finite x = false) (Np.values xs) /\
     Forall (fun v => is_finite v = false) (Np.values vs)).
Proof.
  intros heap mem mu dt steps x0 v0 show_progress out H Sx Sv.
  eexists _, _, _. split; [apply integrate_vdp_spec; allocated|]. cbn zeta.
  rewrite !filled_values.
  set (law := PhasePortrait.accel mu). set (n := Z.to_nat steps).
  assert (NTH : forall i x v,
             nth_error (map fst (Euler.trajectory law dt n (x0, v0))) i = Some x ->
             nth_error (map snd (Euler.trajectory law dt n (x0, v0))) i = Some v ->
             (i < n)%nat /\ (x, v) = Euler.iterate law dt (S i) (x0, v0)).
  { intros i x v Hx Hv.
    assert (I : (i < n)%nat).
    { assert (NN : nth_error (map fst (Euler.trajectory law dt n (x0, v0))) i
                   <> None) by congruence.
      apply nth_error_Some in NN.
      now rewrite length_map, trajectory_length in NN. }
    split; [exact I|].
    rewrite nth_error_map, trajectory_nth in Hx by exact I.
    rewrite nth_error_map, trajectory_nth in Hv by exact I.
    injection Hx as <-. injection Hv as <-.
    symmetry. apply surjective_pairing. }
  split.
  - intros i j xi vi xj vj Lt Xi Vi Xj Vj Bad.
    destruct (NTH i xi vi Xi Vi) as [_ Ei].
    destruct (NTH j xj vj Xj Vj) as [_ Ej].
    replace (S j) with (S i + S (j - S i))%nat in Ej by lia.
    rewrite iterate_add, <- Ei in Ej.
    destruct (iterate_S_nonfinite mu dt (j - S i) (xi, vi) Bad) as [Fx Fv].
    fold law in Fx, Fv. rewrite <- Ej in Fx, Fv. now split.
  - intros Bad. split; apply Forall_forall; intros y Hy;
      apply In_nth_error in Hy; destruct Hy as [i Hi].
    + assert (I : (i < n)%nat).
      { assert (NN : (i < length (map fst (Euler.trajectory law dt n (x0, v0))))%nat)
          by (apply nth_error_Some; congruence).
        now rewrite length_map, trajectory_length in NN. }
      rewrite nth_error_map, trajectory_nth in Hi by exact I.
      cbn in Hi. injection Hi as <-.
      now destruct (iterate_S_nonfinite mu dt i (x0, v0) Bad).
    + assert (I : (i < n)%nat).
      { assert (NN : (i < length (map snd (Euler.trajectory law dt n (x0, v0))))%nat)
          by (apply nth_error_Some; congruence).
        now rewrite length_map, trajectory_length in NN. }
      rewrite nth_error_map, trajectory_nth in Hi by exact I.
      cbn in Hi. injection Hi as <-.
      now destruct (iterate_S_nonfinite mu dt i (x0, v0) Bad).
Qed.

(** X11, witness: three steps from an infinite position. *)
Lemma nonfinite_propagates_witness :
  0 <= 3 < 2 ^ 60 /\
  PhasePortrait.serves_xs PhasePortrait.roomy 3 = true /\
  PhasePortrait.serves_vs PhasePortrait.roomy 3 = true /\
  exists xs vs out',
    PhasePortrait.integrate_vdp PhasePortrait.roomy PhasePortrait.stale 1.2 0.01 3 infinity 0 false []
    = (Ok (xs, vs), out') /\
    (forall i j xi vi xj vj,
        (i < j)%nat ->
        nth_error (Np.values xs) i = Some xi ->
        nth_error (Np.values vs) i = Some vi ->
        nth_error (Np.values xs) j = Some xj ->
        nth_error (Np.values vs) j = Some vj ->
        is_finite xi && is_finite vi = false ->
        is_finite xj = false /\ is_finite vj = false) /\
    (is_finite infinity && is_finite 0 = false ->
     Forall (fun x => is_finite x = false) (Np.values xs) /\
     Forall (fun v => is_finite v = false) (Np.values vs)).
Proof.
  split; [lia|]. split; [reflexivity|]. split; [reflexivity|].
  apply (nonfinite_propagates PhasePortrait.roomy PhasePortrait.stale 1.2 0.01 3 infinity 0 false []);
    [lia|reflexivity..].
Defined.

(** X12.  A NaN among [mu], [dt], [x0] and [v0] is not rejected: for
    a count [0 <= steps < 2 ^ 60] that the allocator serves, the run
    returns arrays of length [steps] in which every position and every
    velocity is NaN. *)
Theorem nan_poisons_run :
  forall heap mem mu dt steps x0 v0 show_progress out,
  0 <= steps < 2 ^ 60 ->
  PhasePortrait.serves_xs heap steps = true ->
  PhasePortrait.serves_vs heap steps = true ->
  is_nan mu || is_nan dt || is_nan x0 || is_nan v0 = true ->
  exists xs vs out',
    PhasePortrait.integrate_vdp heap mem mu dt steps x0 v0 show_progress out
    = (Ok (xs, vs), out') /\
    len xs = steps /\ len vs = steps /\
    Forall (fun x => is_nan x = true) (Np.values xs) /\
    Forall (fun v => is_nan v = true) (Np.values vs).
Proof.
  intros heap mem mu dt steps x0 v0 show_progress out H Sx Sv N.
  eexists _, _, _. split; [apply integrate_vdp_spec; allocated|]. cbn zeta.
  unfold len. rewrite !filled_length, !length_map, trajectory_length, !filled_values.
  split; [lia|]. split; [lia|].
  pose proof (trajectory_nan mu dt (Z.to_nat steps) (x0, v0) N) as F.
  rewrite Forall_forall in F.
  split; apply Forall_forall; intros y Hy; apply in_map_iff in Hy;
    destruct Hy as (q & <- & Hq); now destruct (F q Hq).
Qed.

(** X12, witness: a NaN damping coefficient. *)
Lemma nan_poisons_run_witness :
  0 <= 2 < 2 ^ 60 /\
  PhasePortrait.serves_xs PhasePortrait.roomy 2 = true /\
  PhasePortrait.serves_vs PhasePortrait.roomy 2 = true /\
  is_nan nan || is_nan 0.01 || is_nan 0.1 || is_nan 0 = true /\
  exists xs vs out',
    PhasePortrait.integrate_vdp PhasePortrait.roomy PhasePortrait.stale nan 0.01 2 0.1 0 false []
    = (Ok (xs, vs), out') /\
    len xs = 2 /\ len vs = 2 /\
    Forall (fun x => is_nan x = true) (Np.values xs) /\
    Forall (fun v => is_nan v = true) (Np.values vs).
Proof.
  split; [lia|]. split; [reflexivity|]. split; [reflexivity|]. split; [reflexivity|].
  apply (nan_poisons_run PhasePortrait.roomy PhasePortrait.stale nan 0.01 2 0.1 0 false []);
    [lia|reflexivity..].
Defined.

End NonFiniteRuns.

(** ** The origin *)

Section Origin.
Local Open Scope Z_scope.

Lemma shr_1_even K :
  0 <= K ->
  shr_1 {| shr_m := 2 * K; shr_r := false; shr_s := false |}
  = {| shr_m := K; shr_r := false; shr_s := false |}.
Proof. intros H. destruct K as [|p|p]; try lia; reflexivity. Qed.

(** Shifting out zero bits is exact. *)
Lemma iter_pos_shr_1_exact p : forall M,
  0 <= M ->
  iter_pos shr_1 p {| shr_m := M * 2 ^ Zpos p; shr_r := false; shr_s := false |}
  = {| shr_m := M; shr_r := false; shr_s := false |}.
Proof.
  induction p as [p IH|p IH|]; intros M H; cbn [iter_pos].
  - replace (M * 2 ^ Zpos p~1) with (2 * ((M * 2 ^ Zpos p) * 2 ^ Zpos p)).
    + assert (0 < 2 ^ Zpos p) by (apply Z.pow_pos_nonneg; lia).
      rewrite shr_1_even by nia. rewrite IH by nia. now apply IH.
    + assert (E : Zpos p~1 = Zpos p + Zpos p + 1) by lia.
      rewrite E, !Z.pow_add_r by lia. change (2 ^ 1) with 2. ring.
  - replace (M * 2 ^ Zpos p~0) with ((M * 2 ^ Zpos p) * 2 ^ Zpos p).
    + assert (0 < 2 ^ Zpos p) by (apply Z.pow_pos_nonneg; lia).
      rewrite IH by nia. now apply IH.
    + assert (E : Zpos p~0 = Zpos p + Zpos p) by lia.
      rewrite E, !Z.pow_add_r by lia. ring.
  - change (2 ^ 1) with 2. rewrite Z.mul_comm. now apply shr_1_even.
Qed.

Lemma Zdigits2_mul_pow2 m k :
  0 < m -> 0 <= k -> Zdigits2 (m * 2 ^ k) = Zdigits2 m + k.
Proof.
  intros Hm Hk. destruct (Zdigits2_bounds m Hm) as [B1 B2].
  assert (P : 0 < 2 ^ k) by (apply Z.pow_pos_nonneg; lia).
  assert (D : 0 < Zdigits2 m) by (destruct m; simpl; lia).
  apply Z.le_antisymm.
  - apply Zdigits2_le; try nia. rewrite Z.pow_add_r by lia. nia.
  - apply Zdigits2_ge; [nia|].
    replace (Zdigits2 m + k - 1) with ((Zdigits2 m - 1) + k) by lia.
    rewrite Z.pow_add_r by lia. nia.
Qed.

(** Multiplying by one changes nothing. *)
Lemma SF64mul_one x :
  valid_binary x = true ->
  SF64mul x (S754_finite false 4503599627370496 (-52)) = x.
Proof.
  intros V. destruct x as [s|s| |s m e]; cbn [SF64mul SFmul];
    try reflexivity; try (now destruct s).
  cbn [valid_binary SpecFloat.valid_binary] in V. unfold bounded in V.
  apply andb_prop in V. destruct V as [C B].
  unfold canonical_mantissa in C. apply Z.eqb_eq in C. apply Z.leb_le in B.
  unfold binary_round_aux.
  change (Zpos (m * 4503599627370496)) with (Zpos m * 2 ^ 52).
  assert (S1 : shr_fexp prec emax (Zpos m * 2 ^ 52) (e + -52) loc_Exact
               = ({| shr_m := Zpos m; shr_r := false; shr_s := false |}, e)).
  { unfold shr_fexp. rewrite Zdigits2_mul_pow2 by lia. cbn [Zdigits2].
    replace (Zpos (digits2_pos m) + 52 + (e + -52)) with (Zpos (digits2_pos m) + e)
      by lia.
    rewrite C. replace (e - (e + -52)) with 52 by lia.
    cbn [shr shr_record_of_loc]. rewrite iter_pos_shr_1_exact by lia.
    f_equal. lia. }
  assert (S2 : shr_fexp prec emax (Zpos m) e loc_Exact
               = ({| shr_m := Zpos m; shr_r := false; shr_s := false |}, e)).
  { unfold shr_fexp. cbn [Zdigits2]. rewrite C, Z.sub_diag. reflexivity. }
  rewrite S1. cbn [shr_m loc_of_shr_record round_nearest_even].
  rewrite S2. cbn [shr_m].
  destruct (Z.leb_spec e (emax - prec)); [|lia].
  now destruct s.
Qed.

Lemma mul_one_r x : (x * 1)%float = x.
Proof.
  apply Prim2SF_inj. rewrite mul_spec.
  change (Prim2SF 1) with (S754_finite false 4503599627370496 (-52)).
  apply SF64mul_one, Prim2SF_valid.
Qed.

Local Open Scope float_scope.

Lemma SF_zero_eqb x s : Prim2SF x = S754_zero s -> (x =? 0) = true.
Proof.
  intros H. rewrite eqb_spec, H. change (Prim2SF 0) with (S754_zero false).
  reflexivity.
Qed.

(** Zero times a finite number, and sums and differences of zeros,
    are zero. *)
Lemma zero_mul_l a b :
  (a =? 0) = true -> is_finite b = true -> (a * b =? 0) = true.
Proof.
  intros Ha Hb. apply eqb_zero_SF in Ha. destruct Ha as [s Ha].
  rewrite is_finite_SF in Hb.
  destruct (Prim2SF b) as [sb|sb| |sb mb eb] eqn:B; try discriminate.
  - apply SF_zero_eqb with (s := xorb s sb). now rewrite mul_spec, Ha, B.
  - apply SF_zero_eqb with (s := xorb s sb). now rewrite mul_spec, Ha, B.
Qed.

Lemma zero_mul_r a b :
  is_finite a = true -> (b =? 0) = true -> (a * b =? 0) = true.
Proof.
  intros Ha Hb. apply eqb_zero_SF in Hb. destruct Hb as [s Hb].
  rewrite is_finite_SF in Ha.
  destruct (Prim2SF a) as [sa|sa| |sa ma ea] eqn:A; try discriminate.
  - apply SF_zero_eqb with (s := xorb sa s). now rewrite mul_spec, A, Hb.
  - apply SF_zero_eqb with (s := xorb sa s). now rewrite mul_spec, A, Hb.
Qed.

Lemma zero_add a b :
  (a =? 0) = true -> (b =? 0) = true -> (a + b =? 0) = true.
Proof.
  intros Ha Hb. apply eqb_zero_SF in Ha, Hb.
  destruct Ha as [sa Ha], Hb as [sb Hb].
  rewrite eqb_spec, add_spec, Ha, Hb. now destruct sa, sb.
Qed.

Lemma zero_sub a b :
  (a =? 0) = true -> (b =? 0) = true -> (a - b =? 0) = true.
Proof.
  intros Ha Hb. apply eqb_zero_SF in Ha, Hb.
  destruct Ha as [sa Ha], Hb as [sb Hb].
  rewrite eqb_spec, sub_spec, Ha, Hb. now destruct sa, sb.
Qed.

Lemma zero_finite a : (a =? 0) = true -> is_finite a = true.
Proof.
  intros H. apply eqb_zero_SF in H. destruct H as [s H].
  now rewrite is_finite_SF, H.
Qed.

(** At a zero position the factor [1 - x * x] is one. *)
Lemma one_minus_square x : (x =? 0) = true -> 1 - x * x = 1.
Proof.
  intros H. apply eqb_zero_SF in H. destruct H as [s H].
  apply Prim2SF_inj. rewrite sub_spec, mul_spec, H.
  change (Prim2SF 1) with (S754_finite false 4503599627370496 (-52)).
  now destruct s.
Qed.

(** With finite parameters a zero state is followed by a zero state. *)
Lemma step_zero mu dt p :
  is_finite mu = true -> is_finite dt = true ->
  (fst p =? 0) = true -> (snd p =? 0) = true ->
  (fst (Euler.step (PhasePortrait.accel mu) dt p) =? 0) = true /\
  (snd (Euler.step (PhasePortrait.accel mu) dt p) =? 0) = true.
Proof.
  destruct p as [x v]. cbn [fst snd]. intros Hmu Hdt Hx Hv.
  unfold Euler.step, PhasePortrait.accel. cbn [fst snd].
  rewrite (one_minus_square x Hx), mul_one_r.
  assert (A : (mu * v - x =? 0) = true)
    by (apply zero_sub; [now apply zero_mul_r|assumption]).
  assert (V : (v + (mu * v - x) * dt =? 0) = true)
    by (apply zero_add; [assumption|now apply zero_mul_l]).
  split; [|exact V].
  apply zero_add; [assumption|now apply zero_mul_l].
Qed.

Lemma trajectory_zero mu dt n : forall p,
  is_finite mu = true -> is_finite dt = true ->
  (fst p =? 0) = true -> (snd p =? 0) = true ->
  Forall (fun q => (fst q =? 0) = true /\ (snd q =? 0) = true)
         (Euler.trajectory (PhasePortrait.accel mu) dt n p).
Proof.
  induction n as [|n IH]; intros p Hmu Hdt Hx Hv; [constructor|].
  cbn [Euler.trajectory]. destruct (step_zero mu dt p Hmu Hdt Hx Hv) as [Zx Zv].
  constructor; [now split|]. now apply IH.
Qed.

(** X13.  The origin is a fixed point of the scheme: with finite [mu]
    and [dt], a run started at [x0 == 0] and [v0 == 0] (for a count
    [0 <= steps < 2 ^ 60] that the allocator serves) records nothing
    but zeros. *)
Theorem origin_is_fixed :
  forall heap mem mu dt steps x0 v0 show_progress out,
  (0 <= steps < 2 ^ 60)%Z ->
  PhasePortrait.serves_xs heap steps = true ->
  PhasePortrait.serves_vs heap steps = true ->
  is_finite mu = true -> is_finite dt = true ->
  (x0 =? 0) = true -> (v0 =? 0) = true ->
  exists xs vs out',
    PhasePortrait.integrate_vdp heap mem mu dt steps x0 v0 show_progress out
    = (Py.Ok (xs, vs), out') /\
    Py.len xs = steps /\ Py.len vs = steps /\
    Forall (fun x => (x =? 0) = true) (Np.values xs) /\
    Forall (fun v => (v =? 0) = true) (Np.values vs).
Proof.
  intros heap mem mu dt steps x0 v0 show_progress out H Sx Sv Hmu Hdt Hx Hv.
  eexists _, _, _. split; [apply integrate_vdp_spec; allocated|]. cbn zeta.
  unfold Py.len.
  rewrite !filled_length, !length_map, trajectory_length, !filled_values.
  split; [lia|]. split; [lia|].
  pose proof (trajectory_zero mu dt (Z.to_nat steps) (x0, v0) Hmu Hdt Hx Hv) as F.
  rewrite Forall_forall in F.
  split; apply Forall_forall; intros y Hy; apply in_map_iff in Hy;
    destruct Hy as (q & <- & Hq); now destruct (F q Hq).
Qed.

(** X13, witness: four steps from [(0, -0)]. *)
Lemma origin_is_fixed_witness :
  (0 <= 4 < 2 ^ 60)%Z /\
  PhasePortrait.serves_xs PhasePortrait.roomy 4 = true /\
  PhasePortrait.serves_vs PhasePortrait.roomy 4 = true /\
  is_finite 1.2 = true /\ is_finite 0.01 = true /\
  (0 =? 0) = true /\ (neg_zero =? 0) = true /\
  exists xs vs out',
    PhasePortrait.integrate_vdp PhasePortrait.roomy PhasePortrait.stale 1.2 0.01 4 0 neg_zero true []
    = (Py.Ok (xs, vs), out') /\
    Py.len xs = 4%Z /\ Py.len vs = 4%Z /\
    Forall (fun x => (x =? 0) = true) (Np.values xs) /\
    Forall (fun v => (v =? 0) = true) (Np.values vs).
Proof.
  split; [lia|]. split; [reflexivity|]. split; [reflexivity|].
  split; [reflexivity|]. split; [reflexivity|].
  split; [reflexivity|]. split; [reflexivity|].
  apply (origin_is_fixed PhasePortrait.roomy PhasePortrait.stale 1.2 0.01 4 0 neg_zero true []);
    [lia|reflexivity..].
Defined.

End Origin.

(** ** A zero step size *)

Section ZeroStep.
Local Open Scope float_scope.

(** Equal, or both zero (of either sign). *)
Let sim (A B : spec_float) : Prop :=
  A = B \/ exists s t, A = S754_zero s /\ B = S754_zero t.

Lemma sim_refl A : sim A A.
Proof. now left. Qed.

Lemma sim_mul A A' B B' :
  sim A A' -> sim B B' -> sim (SF64mul A B) (SF64mul A' B').
Proof.
  intros [->|(s & t & -> & ->)] [->|(s' & t' & -> & ->)];
    [apply sim_refl| | |].
  - destruct A' as [sa|sa| |sa ma ea]; cbn [SF64mul SFmul];
      try (now left); right; eauto.
  - destruct B' as [sb|sb| |sb mb eb]; cbn [SF64mul SFmul];
      try (now left); right; eauto.
  - right. cbn [SF64mul SFmul]. eauto.
Qed.

Lemma sim_add A A' B B' :
  sim A A' -> sim B B' -> sim (SF64add A B) (SF64add A' B').
Proof.
  intros [->|(s & t & -> & ->)] [->|(s' & t' & -> & ->)];
    [apply sim_refl| | |].
  - destruct A' as [sa|sa| |sa ma ea]; cbn [SF64add SFadd];
      try (now left); right; destruct sa, s', t'; eauto.
  - destruct B' as [sb|sb| |sb mb eb]; cbn [SF64add SFadd];
      try (now left); right; destruct s, t, sb; eauto.
  - right. cbn [SF64add SFadd]. destruct s, t, s', t'; eauto.
Qed.

Lemma sim_sub A A' B B' :
  sim A A' -> sim B B' -> sim (SF64sub A B) (SF64sub A' B').
Proof.
  intros [->|(s & t & -> & ->)] [->|(s' & t' & -> & ->)];
    [apply sim_refl| | |].
  - destruct A' as [sa|sa| |sa ma ea]; cbn [SF64sub SFsub];
      try (now left); right; destruct sa, s', t'; eauto.
  - destruct B' as [sb|sb| |sb mb eb]; cbn [SF64sub SFsub];
      try (now left); right; destruct s, t, sb; eauto.
  - right. cbn [SF64sub SFsub]. destruct s, t, s', t'; eauto.
Qed.

Lemma sim_accel mu x v x' v' :
  sim (Prim2SF x) (Prim2SF x') -> sim (Prim2SF v) (Prim2SF v') ->
  sim (Prim2SF (PhasePortrait.accel mu x v))
      (Prim2SF (PhasePortrait.accel mu x' v')).
Proof.
  intros Hx Hv. unfold PhasePortrait.accel.
  rewrite !sub_spec, !mul_spec, !sub_spec, !mul_spec.
  repeat first [apply sim_sub | apply sim_mul | apply sim_refl | assumption].
Qed.

Lemma sim_finite a b :
  sim (Prim2SF a) (Prim2SF b) -> is_finite a = is_finite b.
Proof.
  rewrite !is_finite_SF. now intros [->|(s & t & -> & ->)].
Qed.

Lemma sim_eqb a b :
  sim (Prim2SF a) (Prim2SF b) -> is_finite b = true -> (a =? b) = true.
Proof.
  rewrite is_finite_SF, eqb_spec. intros [->|(s & t & -> & ->)] F.
  - destruct (Prim2SF b) as [sb|sb| |sb mb eb]; try discriminate.
    + reflexivity.
    + unfold SFeqb. now rewrite SFcompare_finite_refl.
  - reflexivity.
Qed.

(** Adding a zero keeps a finite number, up to the sign of zero. *)
Lemma sim_add_zero a b :
  is_finite a = true -> (b =? 0) = true ->
  sim (Prim2SF (a + b)) (Prim2SF a).
Proof.
  intros Fa Zb. apply eqb_zero_SF in Zb. destruct Zb as [t Zb].
  rewrite is_finite_SF in Fa. rewrite add_spec, Zb.
  destruct (Prim2SF a) as [sa|sa| |sa ma ea]; try discriminate.
  - right. cbn [SF64add SFadd]. destruct sa, t; eauto.
  - now left.
Qed.

Variables mu dt : float.
Hypothesis dt_zero : (dt =? 0) = true.

Let law := PhasePortrait.accel mu.

(** With [dt] zero, a state whose acceleration is finite is followed
    by the same state, up to the sign of zero. *)
Lemma step_frozen x0 v0 p :
  is_finite (law x0 v0) = true ->
  sim (Prim2SF (fst p)) (Prim2SF x0) -> sim (Prim2SF (snd p)) (Prim2SF v0) ->
  sim (Prim2SF (fst (Euler.step law dt p))) (Prim2SF x0) /\
  sim (Prim2SF (snd (Euler.step law dt p))) (Prim2SF v0).
Proof.
  destruct p as [x v]. cbn [fst snd]. intros Fa Sx Sv.
  assert (Fa' : is_finite (law x v) = true)
    by (unfold law in *;
        rewrite (sim_finite _ _ (sim_accel mu x v x0 v0 Sx Sv)); exact Fa).
  unfold law, PhasePortrait.accel in Fa.
  apply finite_sub in Fa. destruct Fa as [Fm Fx0].
  apply finite_mul in Fm. destruct Fm as [_ Fv0].
  assert (Fx : is_finite x = true) by (now rewrite (sim_finite _ _ Sx)).
  assert (Fv : is_finite v = true) by (now rewrite (sim_finite _ _ Sv)).
  unfold Euler.step. cbn [fst snd].
  assert (V : sim (Prim2SF (v + law x v * dt)) (Prim2SF v))
    by (apply sim_add_zero; [assumption|now apply zero_mul_r]).
  assert (Fv' : is_finite (v + law x v * dt) = true)
    by (now rewrite (sim_finite _ _ V)).
  assert (X : sim (Prim2SF (x + (v + law x v * dt) * dt)) (Prim2SF x))
    by (apply sim_add_zero; [assumption|now apply zero_mul_r]).
  split.
  - destruct X as [->|(s & t & -> & E)]; [assumption|].
    destruct Sx as [<-|(s' & t' & E' & ->)]; [right; eauto|right; eauto].
  - destruct V as [->|(s & t & -> & E)]; [assumption|].
    destruct Sv as [<-|(s' & t' & E' & ->)]; [right; eauto|right; eauto].
Qed.

Lemma trajectory_frozen x0 v0 n : forall p,
  is_finite (law x0 v0) = true ->
  sim (Prim2SF (fst p)) (Prim2SF x0) -> sim (Prim2SF (snd p)) (Prim2SF v0) ->
  Forall (fun q => (fst q =? x0) = true /\ (snd q =? v0) = true)
         (Euler.trajectory law dt n p).
Proof.
  induction n as [|n IH]; intros p Fa Sx Sv; [constructor|].
  cbn [Euler.trajectory].
  destruct (step_frozen x0 v0 p Fa Sx Sv) as [Sx' Sv'].
  assert (F : is_finite x0 = true /\ is_finite v0 = true).
  { unfold law, PhasePortrait.accel in Fa.
    apply finite_sub in Fa. destruct Fa as [Fm Fx0].
    apply finite_mul in Fm. now destruct Fm as [_ Fv0]. }
  constructor.
  - split; apply sim_eqb; tauto.
  - now apply IH.
Qed.

End ZeroStep.

Section ZeroStepRun.
Local Open Scope float_scope.

(** X14.  A zero step size freezes the run: with [dt == 0] and a
    finite acceleration at the initial state (for a count
    [0 <= steps < 2 ^ 60] that the allocator serves), every recorded
    position equals [x0] and every recorded velocity equals [v0]. *)
Theorem zero_step_freezes :
  forall heap mem mu dt steps x0 v0 show_progress out,
  (0 <= steps < 2 ^ 60)%Z ->
  PhasePortrait.serves_xs heap steps = true ->
  PhasePortrait.serves_vs heap steps = true ->
  (dt =? 0) = true ->
  is_finite (PhasePortrait.accel mu x0 v0) = true ->
  exists xs vs out',
    PhasePortrait.integrate_vdp heap mem mu dt steps x0 v0 show_progress out
    = (Py.Ok (xs, vs), out') /\
    Py.len xs = steps /\ Py.len vs = steps /\
    Forall (fun x => (x =? x0) = true) (Np.values xs) /\
    Forall (fun v => (v =? v0) = true) (Np.values vs).
Proof.
  intros heap mem mu dt steps x0 v0 show_progress out H Sx Sv Hdt Fa.
  eexists _, _, _. split; [apply integrate_vdp_spec; allocated|]. cbn zeta.
  unfold Py.len.
  rewrite !filled_length, !length_map, trajectory_length, !filled_values.
  split; [lia|]. split; [lia|].
  pose proof (trajectory_frozen mu dt Hdt x0 v0 (Z.to_nat steps) (x0, v0) Fa
                (or_introl eq_refl) (or_introl eq_refl)) as F.
  rewrite Forall_forall in F.
  split; apply Forall_forall; intros y Hy; apply in_map_iff in Hy;
    destruct Hy as (q & <- & Hq); now destruct (F q Hq).
Qed.

(** X14, witness: three steps of size zero from [(0.1, 2)]. *)
Lemma zero_step_freezes_witness :
  (0 <= 3 < 2 ^ 60)%Z /\
  PhasePortrait.serves_xs PhasePortrait.roomy 3 = true /\
  PhasePortrait.serves_vs PhasePortrait.roomy 3 = true /\
  (0 =? 0) = true /\
  is_finite (PhasePortrait.accel 1.2 0.1 2) = true /\
  exists xs vs out',
    PhasePortrait.integrate_vdp PhasePortrait.roomy PhasePortrait.stale 1.2 0 3 0.1 2 false []
    = (Py.Ok (xs, vs), out') /\
    Py.len xs = 3%Z /\ Py.len vs = 3%Z /\
    Forall (fun x => (x =? 0.1) = true) (Np.values xs) /\
    Forall (fun v => (v =? 2) = true) (Np.values vs).
Proof.
  split; [lia|]. split; [reflexivity|]. split; [reflexivity|].
  split; [reflexivity|]. split; [reflexivity|].
  apply (zero_step_freezes PhasePortrait.roomy PhasePortrait.stale 1.2 0 3 0.1 2 false []);
    [lia|reflexivity..].
Defined.

End ZeroStepRun.
